(** * solid-state-tools: demand counting, fetch state machine, subscriptions

  A shallow embedding of [createFetched], [quantum] and
  [createSubscription] (lib/index.ts) together with the few facts about
  the reactive runtime (solid-js) that these functions rely on:
  signals whose setter treats a function argument as an updater,
  equality-gated writes, cleanups that run before a computation reruns,
  batches, and the microtask queue. *)

From Stdlib Require Import ZArith Bool Lia.
From stdpp Require Import base list strings.

Local Open Scope Z_scope.

(** ** JavaScript values *)

Module Js.

(** The values that flow through the library.  Numbers are the integers
    and [NaN]; objects and functions are known by reference. *)
Inductive JsVal : Type :=
| VUndefined
| VNull
| VBool (b : bool)
| VNum (n : Z)
| VNaN
| VStr (s : string)
| VObj (ref : nat)
| VFun (fid : nat).

#[global] Instance JsVal_eq_dec : EqDecision JsVal.
Proof. solve_decision. Defined.

(** [a === b] *)
Definition strict_eq (a b : JsVal) : bool :=
  match a, b with
  | VNaN, _ | _, VNaN => false
  | _, _ => bool_decide (a = b)
  end.

(** [a !== b] *)
Definition strict_neq (a b : JsVal) : bool := negb (strict_eq a b).

(** [!!a] *)
Definition truthy (a : JsVal) : bool :=
  match a with
  | VUndefined | VNull | VNaN => false
  | VBool b => b
  | VNum n => negb (n =? 0)
  | VStr s => negb (bool_decide (s = EmptyString))
  | VObj _ | VFun _ => true
  end.

(** How a call ends: with a value or with a thrown value. *)
Inductive Completion (A : Type) : Type :=
| Normal (a : A)
| Throw (e : JsVal).
Arguments Normal {A} a.
Arguments Throw {A} e.

(** What the function with reference [fid] does when it is called with
    one argument. *)
Definition Closures : Type := nat -> JsVal -> Completion JsVal.

End Js.
Import Js.

(** ** Signals ([createSignal]) *)

Module Signal.

(** [writeSignal] with the default comparator [===]: the cell keeps its
    value, and nobody is notified, when the new value is strictly equal
    to the current one.  The flag says whether observers are notified. *)
Definition write (cur v : JsVal) : JsVal * bool :=
  if strict_eq cur v then (cur, false) else (v, true).

(** The setter returned by [createSignal]: a function argument is called
    with the current value and its result is written. *)
Definition setter (call : Closures) (cur arg : JsVal) : Completion (JsVal * bool) :=
  match arg with
  | VFun f =>
      match call f cur with
      | Normal v => Normal (write cur v)
      | Throw e => Throw e
      end
  | _ => Normal (write cur arg)
  end.

(** [set(() => x)]: the arrow function returns [x] whatever the current
    value is, so [x] is written as it is, also when it is a function. *)
Definition set_const (cur x : JsVal) : JsVal * bool := write cur x.

End Signal.

(** ** The fetch state machine ([createFetched]) *)

Module Fetched.

(** [FetchedState] *)
Inductive FetchedState : Type :=
| Unresolved | Pending | Ready | Refreshing | Errored.

#[global] Instance FetchedState_eq_dec : EqDecision FetchedState.
Proof. solve_decision. Defined.

(** What one call of the winch does before it returns: the values it
    hands to [update] synchronously, in order, and the value it throws,
    if it throws.  Whatever it schedules for later shows up as [Commit]
    events. *)
Record WinchRun : Type := mkWinchRun {
  commits : list JsVal;
  raised : option JsVal;
}.

(** What observers read during one notification pass. *)
Record View : Type := mkView {
  v_state : FetchedState;
  v_latest : JsVal;
  v_error : JsVal;
  v_fetched : JsVal;
}.

(** The closure of [createFetched]: its four signals ([spool] is the
    signal inside [createSpool], the externally visible reader),
    [hasLatest], one [invalided] flag per run of the computation (the
    run's index is its position), [init] of the late [createSpool] (true
    while the winch has not been wound), whether the computation is
    still owned, and the runtime's bookkeeping: [dirty] when a signal
    changed since the last notification pass, and the passes so far,
    newest first. *)
Record Fetch : Type := mkFetch {
  state : FetchedState;
  latest : JsVal;
  error : JsVal;
  spool : JsVal;
  hasLatest : bool;
  invalided : list bool;
  init : bool;
  alive : bool;
  dirty : bool;
  passes : list View;
}.

Inductive Outcome : Type :=
| Done (s : Fetch)
| Crashed (e : JsVal) (s : Fetch).

Definition state_of (o : Outcome) : Fetch :=
  match o with Done s | Crashed _ s => s end.

Definition crashed (o : Outcome) : bool :=
  match o with Done _ => false | Crashed _ _ => true end.

Definition view (s : Fetch) : View :=
  mkView (state s) (latest s) (error s) (spool s).

(** [setState(x)] *)
Definition setState (x : FetchedState) (s : Fetch) : Fetch :=
  if bool_decide (state s = x) then s
  else mkFetch x (latest s) (error s) (spool s) (hasLatest s)
         (invalided s) (init s) (alive s) true (passes s).

(** [setLatest(() => x)] *)
Definition setLatest (x : JsVal) (s : Fetch) : Fetch :=
  let '(v, changed) := Signal.set_const (latest s) x in
  mkFetch (state s) v (error s) (spool s) (hasLatest s)
    (invalided s) (init s) (alive s) (dirty s || changed) (passes s).

(** [update(x)], that is [setSpool(() => x)] *)
Definition update (x : JsVal) (s : Fetch) : Fetch :=
  let '(v, changed) := Signal.set_const (spool s) x in
  mkFetch (state s) (latest s) (error s) v (hasLatest s)
    (invalided s) (init s) (alive s) (dirty s || changed) (passes s).

Definition set_hasLatest (b : bool) (s : Fetch) : Fetch :=
  mkFetch (state s) (latest s) (error s) (spool s) b
    (invalided s) (init s) (alive s) (dirty s) (passes s).

Definition set_invalided (l : list bool) (s : Fetch) : Fetch :=
  mkFetch (state s) (latest s) (error s) (spool s) (hasLatest s)
    l (init s) (alive s) (dirty s) (passes s).

Definition set_owner (i a : bool) (s : Fetch) : Fetch :=
  mkFetch (state s) (latest s) (error s) (spool s) (hasLatest s)
    (invalided s) i a (dirty s) (passes s).

(** End of a batch: one notification pass if anything changed. *)
Definition flush (s : Fetch) : Fetch :=
  if dirty s then
    mkFetch (state s) (latest s) (error s) (spool s) (hasLatest s)
      (invalided s) (init s) (alive s) false (view s :: passes s)
  else s.

(** A batch left by an exception: the pending notifications are dropped. *)
Definition abort (s : Fetch) : Fetch :=
  mkFetch (state s) (latest s) (error s) (spool s) (hasLatest s)
    (invalided s) (init s) (alive s) false (passes s).

Definition settle (o : Outcome) : Outcome :=
  match o with
  | Done s => Done (flush s)
  | Crashed e s => Crashed e (abort s)
  end.

(** The function handed to the winch by run [k]:
    [(x) => { if (invalided) return; batch(() => { setState("ready");
    setLatest(() => x); hasLatest = true; update(x); }); }], without the
    notification at the end of the batch. *)
Definition commit_body (k : nat) (x : JsVal) (s : Fetch) : Fetch :=
  match invalided s !! k with
  | Some false => update x (set_hasLatest true (setLatest x (setState Ready s)))
  | _ => s
  end.

(** The same function called from outside any computation (a promise
    continuation, a timer): the batch notifies when it ends. *)
Definition commit (k : nat) (x : JsVal) (s : Fetch) : Fetch :=
  flush (commit_body k x s).

(** The cleanup registered by the current run:
    [invalided = true; update(undefined)]. *)
Definition cleanup (s : Fetch) : Fetch :=
  match invalided s with
  | [] => s
  | _ :: _ =>
      update VUndefined
        (set_invalided (<[pred (length (invalided s)) := true]> (invalided s)) s)
  end.

(** The caller's side: what its function values do when they are called,
    and what the winch does when run [k] calls it ([winch k]). *)
Class Host : Type := mkHost {
  call : Closures;
  winch : nat -> WinchRun;
}.

Section Machine.

Context {host : Host}.

(** The [catch] block: [batch(() => { setState("errored");
    setError(error); })].  [setError] is a signal setter and receives the
    thrown value itself. *)
Definition on_error (e : JsVal) (s : Fetch) : Outcome :=
  let s1 := setState Errored s in
  match Signal.setter call (error s1) e with
  | Normal (v, changed) =>
      Done (mkFetch (state s1) (latest s1) v (spool s1) (hasLatest s1)
              (invalided s1) (init s1) (alive s1) (dirty s1 || changed) (passes s1))
  | Throw e' => Crashed e' s1
  end.

(** The body of [createComputed], run [k] being the next free index. *)
Definition computation (s : Fetch) : Outcome :=
  let k := length (invalided s) in
  let s1 := set_invalided (invalided s ++ [false]) s in
  let s2 := setState (if hasLatest s1 then Refreshing else Pending) s1 in
  let s3 := fold_left (fun a x => commit_body k x a) (commits (winch k)) s2 in
  match raised (winch k) with
  | None => Done s3
  | Some e => on_error e s3
  end.

(** [wind]: the first run. *)
Definition wind (s : Fetch) : Outcome :=
  settle (computation (set_owner false true s)).

(** A tracked dependency of the winch changed: the cleanup of the
    previous run, then the body again. *)
Definition rerun (s : Fetch) : Outcome :=
  if alive s && negb (init s) then settle (computation (cleanup s))
  else Done s.

(** The owner is disposed of: the cleanup of the current run fires. *)
Definition dispose (s : Fetch) : Fetch :=
  if alive s then flush (cleanup (set_owner (init s) false s)) else s.

(** [createFetched(winch, { initial, late })] *)
Definition createFetched (initial : JsVal) (late : bool) : Outcome :=
  let s := mkFetch Unresolved initial VUndefined initial false [] true true false [] in
  if late then Done s else wind s.

(** The accessor returned by [createFetched]:
    [() => { init?.(); return spool(); }] when late, [spool] otherwise. *)
Definition fetched (s : Fetch) : Outcome :=
  if init s then wind s else Done s.

Definition fetched_value (s : Fetch) : JsVal := spool (state_of (fetched s)).

Inductive Event : Type :=
| Rerun
| Commit (k : nat) (x : JsVal)
| Read
| Dispose.

Definition step (s : Fetch) (e : Event) : Fetch :=
  match e with
  | Rerun => state_of (rerun s)
  | Commit k x => commit k x s
  | Read => state_of (fetched s)
  | Dispose => dispose s
  end.

Definition exec (s : Fetch) (evs : list Event) : Fetch := fold_left step evs s.

(** The states the record goes through. *)
Inductive reachable : Fetch -> Prop :=
| reach_create initial late : reachable (state_of (createFetched initial late))
| reach_step s e : reachable s -> reachable (step s e).

(** Does the next call of the winch hand a value to [update] before it
    returns? *)
Definition run_commits (s : Fetch) : bool :=
  match commits (winch (length (invalided s))) with [] => false | _ :: _ => true end.

(** Does event [e], arriving in [s], get a commit accepted? *)
Definition accepts (s : Fetch) (e : Event) : bool :=
  match e with
  | Rerun => alive s && negb (init s) && run_commits s
  | Commit k _ => bool_decide (invalided s !! k = Some false)
  | Read => init s && run_commits s
  | Dispose => false
  end.

Fixpoint accepted (s : Fetch) (evs : list Event) : bool :=
  match evs with
  | [] => false
  | e :: evs' => accepts s e || accepted (step s e) evs'
  end.

(** A commit of run [k] is superseded once a later run has started. *)
Definition superseded (k : nat) (s : Fetch) : bool :=
  bool_decide (S k < length (invalided s))%nat.

(** The events that are not a commit of a superseded run. *)
Fixpoint prune (s : Fetch) (evs : list Event) : list Event :=
  match evs with
  | [] => []
  | e :: evs' =>
      match e with
      | Commit k _ =>
          if superseded k s then prune s evs' else e :: prune (step s e) evs'
      | _ => e :: prune (step s e) evs'
      end
  end.

(** Between operations nothing is waiting to be notified, every run but
    the last one has been invalidated, and no run exists while the late
    [init] is still pending. *)
Definition Inv (s : Fetch) : Prop :=
  dirty s = false
  /\ (forall k, (S k < length (invalided s))%nat -> invalided s !! k = Some true)
  /\ (init s = true -> invalided s = []).

End Machine.

(** Reruns and commits, the events that need a run to act on. *)
Definition idle (e : Event) : bool :=
  match e with Rerun | Commit _ _ => true | _ => false end.

(** *** Invariants of the record *)

(** What holds of the record when a run has just ended. *)
Definition settled (s : Fetch) : Prop :=
  state s <> Unresolved
  /\ (state s = Pending -> hasLatest s = false)
  /\ (state s = Refreshing \/ state s = Ready -> hasLatest s = true)
  /\ (state s = Ready -> spool s = latest s).

(** What the state says about the record at any time. *)
Definition shaped (s : Fetch) : Prop :=
  (state s = Unresolved <-> invalided s = [])
  /\ (state s = Pending -> hasLatest s = false)
  /\ (state s = Refreshing \/ state s = Ready -> hasLatest s = true)
  /\ (alive s = true -> state s = Ready -> spool s = latest s).

(** *** Hosts used in the scenarios *)

(** No function value is ever called. *)
Definition no_closures : Closures := fun _ _ => Normal VUndefined.

(** A winch that only schedules work for later. *)
Definition later : WinchRun := mkWinchRun [] None.

(** [(update) => update(42)] on the first run, asynchronous afterwards. *)
Definition commits_42_first (k : nat) : WinchRun :=
  match k with O => mkWinchRun [VNum 42] None | S _ => later end.

(** [() => { throw "boom" }] on the first run, asynchronous afterwards. *)
Definition throws_first (k : nat) : WinchRun :=
  match k with O => mkWinchRun [] (Some (VStr "boom")) | S _ => later end.

(** [() => { throw f }] where [f] is the function with reference 0. *)
Definition throws_function (k : nat) : WinchRun :=
  mkWinchRun [] (Some (VFun 0)).

(** [f = () => 7] *)
Definition returns_seven : Closures := fun _ _ => Normal (VNum 7).

(** [f = () => { throw "again" }] *)
Definition throws_again : Closures := fun _ _ => Throw (VStr "again").

Definition asynchronous : Host := mkHost no_closures (fun _ => later).
Definition commits_42 : Host := mkHost no_closures commits_42_first.
Definition throws_boom : Host := mkHost no_closures throws_first.
Definition throws_seven : Host := mkHost returns_seven throws_function.
Definition throws_thrower : Host := mkHost throws_again throws_function.

End Fetched.

(** ** The demand counter ([quantum]) *)

Module Quantum.

(** Calls made to the caller's [track] function and to the disposal
    function it returned, newest first. *)
Inductive Call : Type := Activate | Deactivate.

#[global] Instance Call_eq_dec : EqDecision Call.
Proof. solve_decision. Defined.

(** The rest of the program, as the counter sees it: its state [W], the
    [source] accessor, the [track] function, and how a disposal function
    (of type [D]) that [track] returned runs. *)
Class World (W D : Type) : Type := mkWorld {
  source : W -> JsVal;
  track : W -> D * W;
  run_dispose : D -> W -> W;
}.

Section Counter.

Context {W D : Type} {world : World W D}.

(** The closure of [quantum]: [counter] and [dispose], the [uncount]
    callbacks registered with [onCleanup] and not fired yet, the
    decrements waiting in the microtask queue, and the calls made. *)
Record Counter : Type := mkCounter {
  counter : Z;
  dispose : option D;
  cleanups : nat;
  microtasks : nat;
  calls : list Call;
}.

Definition quantum : Counter := mkCounter 0 None 0 0 [].

(** [count]: [if (counter === 0) dispose = untrack(track); counter++] *)
Definition count (qw : Counter * W) : Counter * W :=
  let '(q, w) := qw in
  if counter q =? 0 then
    let '(d, w') := track w in
    (mkCounter (counter q + 1) (Some d) (cleanups q) (microtasks q)
       (Activate :: calls q), w')
  else
    (mkCounter (counter q + 1) (dispose q) (cleanups q) (microtasks q) (calls q), w).

(** [onCleanup(uncount)] *)
Definition register (q : Counter) : Counter :=
  mkCounter (counter q) (dispose q) (S (cleanups q)) (microtasks q) (calls q).

(** [uncount]: [queueMicrotask(...)], nothing else. *)
Definition uncount (q : Counter) : Counter :=
  mkCounter (counter q) (dispose q) (cleanups q) (S (microtasks q)) (calls q).

(** The queued function:
    [counter--; if (counter === 0) { dispose?.(); dispose = undefined; }] *)
Definition decrement (qw : Counter * W) : Counter * W :=
  let '(q, w) := qw in
  let c := counter q - 1 in
  if c =? 0 then
    match dispose q with
    | Some d =>
        (mkCounter c None (cleanups q) (microtasks q) (Deactivate :: calls q),
         run_dispose d w)
    | None => (mkCounter c None (cleanups q) (microtasks q) (calls q), w)
    end
  else (mkCounter c (dispose q) (cleanups q) (microtasks q) (calls q), w).

(** The accessor returned by [quantum]; [listener] is [getListener()]. *)
Definition accessor (listener : bool) (qw : Counter * W) : JsVal * (Counter * W) :=
  if listener then
    let '(q, w) := count qw in (source w, (register q, w))
  else (source (snd qw), qw).

Inductive Event : Type :=
| Get (listener : bool)  (* the accessor is called *)
| Cleanup                (* a consumer reruns or is disposed of: one
                            registered [uncount] fires *)
| Microtask.             (* the runtime runs one queued decrement *)

Definition step (qw : Counter * W) (e : Event) : Counter * W :=
  match e with
  | Get listener => snd (accessor listener qw)
  | Cleanup =>
      match cleanups (fst qw) with
      | O => qw
      | S n =>
          (uncount (mkCounter (counter (fst qw)) (dispose (fst qw)) n
                      (microtasks (fst qw)) (calls (fst qw))), snd qw)
      end
  | Microtask =>
      match microtasks (fst qw) with
      | O => qw
      | S n =>
          decrement (mkCounter (counter (fst qw)) (dispose (fst qw))
                       (cleanups (fst qw)) n (calls (fst qw)), snd qw)
      end
  end.

Definition exec (qw : Counter * W) (evs : list Event) : Counter * W :=
  fold_left step evs qw.

(** All the queued decrements run. *)
Definition drain (qw : Counter * W) : Counter * W :=
  exec qw (repeat Microtask (microtasks (fst qw))).



Definition activations (q : Counter) : nat :=
  length (filter (fun c => c = Activate) (calls q)).


(** The counter's states; the rest of the program may change [W] in
    between. *)
Inductive reachable : Counter * W -> Prop :=
| reach_quantum w : reachable (quantum, w)
| reach_step qw e : reachable qw -> reachable (step qw e)
| reach_world q w w' : reachable (q, w) -> reachable (q, w').

(** The counter is the number of registered cleanups plus the number of
    queued decrements, and [dispose] is set exactly while it is
    positive. *)
Definition Inv (q : Counter) : Prop :=
  counter q = Z.of_nat (cleanups q + microtasks q)
  /\ (counter q = 0 -> dispose q = None)
  /\ (0 < counter q -> is_Some (dispose q)).


End Counter.

(** *** The counter of the scenarios: a source that never changes, and
    [track] and disposal functions that do nothing but get logged in
    [calls] *)

Definition still : World JsVal unit :=
  mkWorld JsVal unit (fun w => w) (fun w => (tt, w)) (fun _ w => w).

Definition demo (evs : list Event) : Counter (D := unit) * JsVal :=
  exec (world := still) (quantum, VNum 0) evs.

End Quantum.

(** ** The subscription reconciler ([createSubscription]) *)

Module Subscription.

(** The handler: [reconcile] when it is given, and what the [n]-th call
    of [sub] hands to its [update] argument before it returns.  What
    [get] returns comes with the [Pull] event, and the values given to
    [set] are kept in [sent]. *)
Record Handler : Type := mkHandler {
  reconcile : option (JsVal -> JsVal -> JsVal -> JsVal);
  sub_pushes : nat -> list JsVal;
}.

(** What observers read during one notification pass. *)
Record View : Type := mkView {
  v_local : JsVal;
  v_cache : JsVal;
  v_subscribed : bool;
}.

(** The closure of [createSubscription]: the signals [local], [cache]
    and [subscribed], the flag [hasLocal], the memo [detached] (the value
    it holds, and [stale] when one of its sources changed since it last
    ran), the values handed to [handler.set] (newest first), the number
    of calls of [handler.sub], and the runtime's [dirty] flag and
    notification passes as in the fetch record. *)
Record Cells : Type := mkCells {
  local : JsVal;
  hasLocal : bool;
  cache : JsVal;
  subscribed : bool;
  memo : bool;
  stale : bool;
  sent : list JsVal;
  subs : nat;
  dirty : bool;
  passes : list View;
}.

Definition view (w : Cells) : View := mkView (local w) (cache w) (subscribed w).

(** A write to [local] that the signal accepted ([changed]): the memo
    and the observers are marked. *)
Definition put_local (v : JsVal) (changed : bool) (w : Cells) : Cells :=
  mkCells v (hasLocal w) (cache w) (subscribed w) (memo w)
    (stale w || changed) (sent w) (subs w) (dirty w || changed) (passes w).

(** [setLocal(() => x)] *)
Definition setLocal (x : JsVal) (w : Cells) : Cells :=
  let '(v, changed) := Signal.set_const (local w) x in put_local v changed w.

(** [setCache(() => x)] *)
Definition setCache (x : JsVal) (w : Cells) : Cells :=
  let '(v, changed) := Signal.set_const (cache w) x in
  mkCells (local w) (hasLocal w) v (subscribed w) (memo w)
    (stale w || changed) (sent w) (subs w) (dirty w || changed) (passes w).

(** [setSubscribed(b)] *)
Definition setSubscribed (b : bool) (w : Cells) : Cells :=
  if bool_decide (subscribed w = b) then w
  else mkCells (local w) (hasLocal w) (cache w) b (memo w)
         (stale w) (sent w) (subs w) true (passes w).

Definition set_hasLocal (b : bool) (w : Cells) : Cells :=
  mkCells (local w) b (cache w) (subscribed w) (memo w)
    (stale w) (sent w) (subs w) (dirty w) (passes w).

(** The function of the memo: [() => local() !== cache()] *)
Definition compare (w : Cells) : bool := strict_neq (local w) (cache w).

(** [detached()]: a stale memo runs again before it answers. *)
Definition detached (w : Cells) : bool * Cells :=
  if stale w then
    (compare w,
     mkCells (local w) (hasLocal w) (cache w) (subscribed w) (compare w)
       false (sent w) (subs w) (dirty w) (passes w))
  else (memo w, w).

(** End of a batch: a stale memo runs again, and observers get one
    notification pass if anything changed. *)
Definition flush (w : Cells) : Cells :=
  mkCells (local w) (hasLocal w) (cache w) (subscribed w)
    (if stale w then compare w else memo w) false (sent w) (subs w) false
    (if dirty w then view w :: passes w else passes w).

(** [push()] *)
Definition push (w : Cells) : Cells :=
  if negb (hasLocal w) then w
  else mkCells (local w) (hasLocal w) (cache w) (subscribed w) (memo w)
         (stale w) (local w :: sent w) (subs w) (dirty w) (passes w).

(** [createSubscription(handler, { initial })]; [initial] is [undefined]
    when no options are given. *)
Definition createCells (initial : JsVal) : Cells :=
  mkCells initial (truthy initial) VUndefined false
    (strict_neq initial VUndefined) false [] O false [].

(** What [handler.get()] returns. *)
Inductive GetResult : Type :=
| Now (v : JsVal)
| Promise.

Inductive Event : Type :=
| Call (listener : bool)    (* [fn()] *)
| Assign (arg : JsVal)      (* [fn(arg)] *)
| Pull (g : GetResult)      (* [pull()] *)
| Resolve (x : JsVal)       (* the promise of a pull is fulfilled *)
| Feed (x : JsVal)          (* the live feed calls [update(x)] *)
| Push                      (* [push()] *)
| Detached                  (* [detached()] *)
| Cleanup                   (* a consumer of [fn] reruns or is disposed of *)
| Microtask.                (* one queued decrement runs *)

(** The caller's side: what its function values do when they are called,
    and the handler. *)
Class Setup : Type := mkSetup {
  call : Closures;
  handler : Handler;
}.

Section Reconciler.

Context {setup : Setup}.

Definition reconciled (remote : JsVal) (w : Cells) : JsVal :=
  match reconcile handler with
  | Some f => f remote (local w) (cache w)
  | None => remote
  end.

(** The body of the batch in [updateFromRemote]. *)
Definition updateFromRemote_body (remote : JsVal) (w : Cells) : JsVal * Cells :=
  let r := reconciled remote w in
  (r, setCache r (setLocal r (set_hasLocal true w))).

(** [updateFromRemote] called from outside any batch. *)
Definition updateFromRemote (remote : JsVal) (w : Cells) : JsVal * Cells :=
  let '(r, w') := updateFromRemote_body remote w in (r, flush w').

(** The setter of the atom:
    [(...args) => { hasLocal = true; return setLocal(...args); }] *)
Definition set (arg : JsVal) (w : Cells) : Completion JsVal * Cells :=
  let w1 := set_hasLocal true w in
  match Signal.setter call (local w1) arg with
  | Normal (v, changed) => (Normal v, flush (put_local v changed w1))
  | Throw e => (Throw e, w1)
  end.

(** [pull()] *)
Definition pull (g : GetResult) (w : Cells) : Cells :=
  match g with
  | Now v => snd (updateFromRemote v w)
  | Promise => w
  end.

(** The [track] function given to [quantum]: [handler.sub] is called
    with [updateFromRemote], then [setSubscribed(true)]. *)
Definition track (w : Cells) : unit * Cells :=
  let w1 := mkCells (local w) (hasLocal w) (cache w) (subscribed w) (memo w)
              (stale w) (sent w) (S (subs w)) (dirty w) (passes w) in
  (tt, setSubscribed true
         (fold_left (fun a x => snd (updateFromRemote_body x a))
            (sub_pushes handler (subs w)) w1)).

(** The function [track] returns: [setSubscribed(false); dispose()] *)
Definition untrack_ (_ : unit) (w : Cells) : Cells := setSubscribed false w.

Definition Sub : Type := Quantum.Counter (D := unit) * Cells.

(** [quantum(local, () => { ... })] *)
Definition sub_world : Quantum.World Cells unit :=
  Quantum.mkWorld Cells unit local track untrack_.

Definition createSubscription (initial : JsVal) : Sub :=
  (Quantum.quantum, createCells initial).

Definition qstep (s : Sub) (e : Quantum.Event) : Sub :=
  let '(q, w) := Quantum.step (world := sub_world) s e in (q, flush w).

Definition step (s : Sub) (e : Event) : Sub :=
  match e with
  | Call listener => qstep s (Quantum.Get listener)
  | Assign arg => (fst s, snd (set arg (snd s)))
  | Pull g => (fst s, pull g (snd s))
  | Resolve x | Feed x => (fst s, snd (updateFromRemote x (snd s)))
  | Push => (fst s, push (snd s))
  | Detached => (fst s, snd (detached (snd s)))
  | Cleanup => qstep s Quantum.Cleanup
  | Microtask => qstep s Quantum.Microtask
  end.

Definition exec (s : Sub) (evs : list Event) : Sub := fold_left step evs s.

(** [fn()] *)
Definition read (listener : bool) (s : Sub) : JsVal :=
  fst (Quantum.accessor (world := sub_world) listener s).

Inductive reachable : Sub -> Prop :=
| reach_create initial : reachable (createSubscription initial)
| reach_step s e : reachable s -> reachable (step s e).



(** A memo that is not stale holds what its function computes. *)
Definition fresh (w : Cells) : Prop := stale w = false -> memo w = compare w.

(** Between operations the memo is up to date and nothing is waiting to
    be notified. *)
Definition Inv (w : Cells) : Prop :=
  stale w = false /\ dirty w = false /\ memo w = compare w.

End Reconciler.

(** *** The subscription and its counter *)

(** The subscription and its counter agree. *)
Definition linked (s : Sub) : Prop :=
  Quantum.Inv (fst s)
  /\ subscribed (snd s) = negb (Quantum.counter (fst s) =? 0)
  /\ subs (snd s) = Quantum.activations (fst s).

(** *** Handlers used in the scenarios *)

(** No [reconcile]; [sub] pushes nothing when it subscribes. *)
Definition plain_handler : Handler := mkHandler None (fun _ => []).

(** The handler of the local-storage example: [sub] writes the stored
    value first ([update(parseIntSafe(...))], here 3). *)
Definition storage_handler : Handler := mkHandler None (fun _ => [VNum 3]).

(** Last writer wins unless the remote value equals the cache. *)
Definition keep_local_handler : Handler :=
  mkHandler (Some (fun remote loc cch => if strict_eq remote cch then loc else remote))
    (fun _ => []).

(** The function with reference 0 is [c => c + 1]. *)
Definition increments : Closures :=
  fun _ v => match v with VNum n => Normal (VNum (n + 1)) | _ => Normal VNaN end.

Definition with_handler (h : Handler) : Setup := mkSetup Fetched.no_closures h.

Definition run (h : Handler) (initial : JsVal) (evs : list Event) : Sub :=
  exec (setup := with_handler h) (createSubscription initial) evs.

End Subscription.

(** ** Signals with options ([createSignal(value, options)]) and
    [sameObjectExclusionComparator] *)

Module Cell.

(** [typeof v] *)
Definition typeof_ (v : JsVal) : string :=
  match v with
  | VUndefined => "undefined"
  | VNull | VObj _ => "object"
  | VBool _ => "boolean"
  | VNum _ | VNaN => "number"
  | VStr _ => "string"
  | VFun _ => "function"
  end.

(** [typeof next !== "object" && prev === next] *)
Definition sameObjectExclusionComparator (prev next : JsVal) : bool :=
  negb (bool_decide (typeof_ next = "object")) && strict_eq prev next.

(** [options.equals]: absent, [false], or a comparator. *)
Inductive Equals : Type :=
| EqDefault
| EqFalse
| EqCustom (f : JsVal -> JsVal -> bool).

(** Does the signal keep its value (and stay silent) for this write? *)
Definition equal_by (eq : Equals) (prev next : JsVal) : bool :=
  match eq with
  | EqDefault => strict_eq prev next
  | EqFalse => false
  | EqCustom f => f prev next
  end.

(** A comparator that calls equal only what is the same value. *)
Definition sound (eq : Equals) : Prop :=
  forall a b, equal_by eq a b = true -> a = b.

(** A signal: its value and how many times its observers were told of a
    change. *)
Record Cell : Type := mkCell {
  value : JsVal;
  notified : nat;
}.

Definition createSignal (v : JsVal) : Cell := mkCell v O.

(** [writeSignal] *)
Definition write (eq : Equals) (v : JsVal) (c : Cell) : Cell :=
  if equal_by eq (value c) v then c else mkCell v (S (notified c)).

(** The setter applied to a function [f]: [f] is called with the current
    value, its result is written and returned. *)
Definition apply_updater (eq : Equals) (f : JsVal -> Completion JsVal) (c : Cell)
  : Completion JsVal * Cell :=
  match f (value c) with
  | Normal v => (Normal v, write eq v c)
  | Throw e => (Throw e, c)
  end.

(** The setter of the signal. *)
Definition setter (call : Closures) (eq : Equals) (arg : JsVal) (c : Cell)
  : Completion JsVal * Cell :=
  match arg with
  | VFun f => apply_updater eq (call f) c
  | _ => (Normal arg, write eq arg c)
  end.

End Cell.

(** ** [granular] *)

Module Granular.
Import Cell.

Section Members.

Variable call : Closures.
Variable eq : Equals.

(** [set(value) { setter(() => value); }] *)
Definition set (v : JsVal) (c : Cell) : Cell :=
  snd (apply_updater eq (fun _ => Normal v) c).

(** [map(fn) { return setter((x) => fn(x)); }] *)
Definition map (fn : nat) (c : Cell) : Completion JsVal * Cell :=
  apply_updater eq (fun x => call fn x) c.

(** [mod(fn) { let value; setter((x) => { value = fn(x); return x; });
    return value; }] *)
Definition mod_ (fn : nat) (c : Cell) : Completion JsVal * Cell :=
  let r := call fn (value c) in
  (r, snd (apply_updater eq
             (fun x => match r with
                       | Normal _ => Normal x
                       | Throw e => Throw e
                       end) c)).

End Members.

End Granular.

(** ** [atom] and [asig] *)

Module Atom.
Import Cell.

(** What [atom] can be given: an array, or anything else. *)
Inductive Input : Type :=
| Plain (v : JsVal)
| ArrayOf (items : list JsVal).

(** [signal[i]] *)
Definition item (items : list JsVal) (i : nat) : JsVal := nth i items VUndefined.

(** The checks of [atom] under [isDev]; the result is the message of the
    error that is thrown, if one is. *)
Definition atom_check (isDev : bool) (signal : Input) : option string :=
  if isDev then
    match signal with
    | Plain v =>
        Some ("expected signal to be an array, but got " ++ typeof_ v)%string
    | ArrayOf items =>
        if negb (bool_decide (typeof_ (item items 0) = "function")) then
          Some ("expected getter to be a function, but got "
                ++ typeof_ (item items 0))%string
        else if negb (bool_decide (typeof_ (item items 1) = "function")) then
          Some ("expected setter to be a function, but got "
                ++ typeof_ (item items 1))%string
        else None
    end
  else None.

(** The function [atom] returns:
    [(...args) => (args.length === 0) ? getter() : setter(...args)] *)
Definition atom {W R : Type} (getter : W -> R * W)
    (setter : list JsVal -> W -> R * W) (args : list JsVal) (w : W) : R * W :=
  match args with
  | [] => getter w
  | _ :: _ => setter args w
  end.

(** [asig(value, options)], that is [atom(createSignal(value, options))]:
    the getter reads the signal, and the signal's setter looks at its
    first argument only. *)
Definition asig (call : Closures) (eq : Equals) (args : list JsVal) (c : Cell)
  : Completion JsVal * Cell :=
  atom (fun c => (Normal (value c), c))
       (fun args c => Cell.setter call eq (item args 0) c) args c.

End Atom.

(** ** [createBlinker] *)

Module Blinker.
Import Cell.

(** The closure of [createBlinker]: the signal [flagged], the variable
    [timeout], and of the runtime the timers that are pending and the
    next timer id. *)
Record Blinker : Type := mkBlinker {
  flagged : Cell;
  timeout : option nat;
  timers : list nat;
  next_id : nat;
}.

(** [createBlinker(subject, duration = 500)].  Under [isDev] the
    arguments are checked.  The computation is created with
    [defer: true], so its first run does not call the function. *)
Definition createBlinker (isDev : bool) (subject duration : JsVal)
  : string + Blinker :=
  let duration := match duration with VUndefined => VNum 500 | d => d end in
  if isDev && negb (bool_decide (typeof_ subject = "function")) then
    inl ("expected subject to be a function, but got " ++ typeof_ subject)%string
  else if isDev && negb (bool_decide (typeof_ duration = "number")) then
    inl ("expected duration to be a number, but got " ++ typeof_ duration)%string
  else inr (mkBlinker (createSignal (VBool false)) None [] 1).

(** The subject changed:
    [if (timeout !== undefined) clearTimeout(timeout); else
    setFlagged(true); timeout = setTimeout(..., duration);] *)
Definition changed (b : Blinker) : Blinker :=
  let id := next_id b in
  match timeout b with
  | Some t =>
      mkBlinker (flagged b) (Some id)
        (id :: filter (fun i => i <> t) (timers b)) (S id)
  | None =>
      mkBlinker (write EqDefault (VBool true) (flagged b)) (Some id)
        (id :: timers b) (S id)
  end.

(** Timer [id] is due.  A timer that was cleared, or has fired, does
    nothing; otherwise its function runs:
    [setFlagged(false); timeout = undefined;] *)
Definition fire (id : nat) (b : Blinker) : Blinker :=
  if bool_decide (id ∈ timers b) then
    mkBlinker (write EqDefault (VBool false) (flagged b)) None
      (filter (fun i => i <> id) (timers b)) (next_id b)
  else b.

Inductive Event : Type :=
| Changed
| Fire (id : nat).

Definition step (b : Blinker) (e : Event) : Blinker :=
  match e with
  | Changed => changed b
  | Fire id => fire id b
  end.

Definition exec (b : Blinker) (evs : list Event) : Blinker := fold_left step evs b.

(** The accessor that is returned. *)
Definition blinking (b : Blinker) : JsVal := value (flagged b).

(** The pending timers are the one held in [timeout], if any, and the
    flag is set exactly while there is one. *)
Definition consistent (b : Blinker) : Prop :=
  timers b = match timeout b with Some t => [t] | None => [] end
  /\ blinking b = VBool (bool_decide (is_Some (timeout b))).

End Blinker.

(** ** [createSpool] *)

Module Spool.

(** The closure of [createSpool]: the signal, [init] of the late mode
    (true while the winch has not been wound), and how many times the
    winch has been called. *)
Record Spool : Type := mkSpool {
  spool : JsVal;
  init : bool;
  winds : nat;
}.

(** [setSpool(() => x)], the [update] function of the winch. *)
Definition update (x : JsVal) (s : Spool) : Spool :=
  mkSpool (fst (Signal.set_const (spool s) x)) (init s) (winds s).

Section Spool.

(** What the [n]-th call of the winch does before it returns, as for
    [createFetched]. *)
Variable winch : nat -> Fetched.WinchRun.

(** [wind] *)
Definition wind (s : Spool) : Completion unit * Spool :=
  let w := winch (winds s) in
  let s1 := fold_left (fun a x => update x a) (Fetched.commits w)
              (mkSpool (spool s) (init s) (S (winds s))) in
  match Fetched.raised w with
  | None => (Normal tt, s1)
  | Some e => (Throw e, s1)
  end.

(** [createSpool(winch, { initial, late })]: the result is what is
    thrown, when the winch throws at once, or the closure. *)
Definition createSpool (initial : JsVal) (late : bool) : Completion unit * Spool :=
  if late then (Normal tt, mkSpool initial true O)
  else wind (mkSpool initial false O).

(** Does an error handler ([catchError], an error boundary) cover the
    owner under which [createSpool] was called? *)
Variable boundary : bool.

(** The accessor: [() => { init?.(); return spool(); }] when late,
    where [init] is [() => { init = undefined; runWithOwner(owner,
    wind); }], and [spool] otherwise.  What the winch throws inside
    [runWithOwner] goes to the error handler when there is one, and is
    thrown again by the runtime otherwise: the result is then [None]. *)
Definition read (s : Spool) : option JsVal * Spool :=
  if init s then
    match wind (mkSpool (spool s) false (winds s)) with
    | (Normal _, s') => (Some (spool s'), s')
    | (Throw _, s') => (if boundary then Some (spool s') else None, s')
    end
  else (Some (spool s), s).

Inductive Event : Type :=
| Read
| Update (x : JsVal).  (* the winch calls [update(x)] later on *)

Definition step (s : Spool) (e : Event) : Spool :=
  match e with
  | Read => snd (read s)
  | Update x => update x s
  end.

Definition exec (s : Spool) (evs : list Event) : Spool := fold_left step evs s.

Definition is_read (e : Event) : bool :=
  match e with Read => true | Update _ => false end.

End Spool.

End Spool.

(** ** [derive] *)

Module Derive.
Import Cell.

(** What [derive] sees and owns: the current value of [source], the
    signal [value], and whether the root made by [createRoot] is alive
    (its computation copies [source] into [value] whenever [source]
    changes). *)
Record Derived : Type := mkDerived {
  src : JsVal;
  val : JsVal;
  alive : bool;
}.

Section Derive.

(** [options.equals] *)
Variable eq : Equals.

(** [setValue(source)]: the setter is given the accessor, calls it as
    an updater, and writes what it returns. *)
Definition copy (d : Derived) : Derived :=
  mkDerived (src d)
    (if equal_by eq (val d) (src d) then val d else src d) (alive d).

(** [() => createRoot((dispose) => { createComputed(() => void
    setValue(source)); return dispose; })] *)
Definition track (d : Derived) : unit * Derived :=
  (tt, mkDerived (src (copy d)) (val (copy d)) true).

(** [dispose] *)
Definition untrack_ (_ : unit) (d : Derived) : Derived :=
  mkDerived (src d) (val d) false.

(** [quantum(value, ...)] *)
Definition world : Quantum.World Derived unit :=
  Quantum.mkWorld Derived unit val track untrack_.

Definition State : Type := Quantum.Counter (D := unit) * Derived.

(** [derive(source, options)]: [createSignal(untrack(source), options)] *)
Definition derive (source : JsVal) : State :=
  (Quantum.quantum, mkDerived source source false).

(** [source] takes a new value: a live computation runs again. *)
Definition source_set (v : JsVal) (d : Derived) : Derived :=
  let d1 := mkDerived v (val d) (alive d) in
  if alive d then copy d1 else d1.

Inductive Event : Type :=
| Counter (e : Quantum.Event)  (* a read, a cleanup, a microtask *)
| SourceSet (v : JsVal).

Definition step (s : State) (e : Event) : State :=
  match e with
  | Counter qe => Quantum.step (world := world) s qe
  | SourceSet v => (fst s, source_set v (snd s))
  end.

Definition exec (s : State) (evs : list Event) : State := fold_left step evs s.

(** The accessor that is returned. *)
Definition read (listener : bool) (s : State) : JsVal :=
  fst (Quantum.accessor (world := world) listener s).

Inductive reachable : State -> Prop :=
| reach_derive source : reachable (derive source)
| reach_step s e : reachable s -> reachable (step s e).

End Derive.


End Derive.

(** * Proofs *)

(** ** JavaScript values and signals *)

Module JsFacts.

Lemma strict_eq_true a b : strict_eq a b = true -> a = b.
Proof.
  unfold strict_eq.
  destruct a, b; try discriminate; intros H; by apply bool_decide_eq_true in H.
Qed.

Lemma strict_eq_refl a : a <> VNaN -> strict_eq a a = true.
Proof.
  intros H. unfold strict_eq.
  destruct a; try congruence; by apply bool_decide_eq_true.
Qed.

Lemma strict_eq_nan_l b : strict_eq VNaN b = false.
Proof. reflexivity. Qed.

End JsFacts.
Import JsFacts.

Module SignalFacts.
Import Signal.

Lemma write_val cur v : fst (write cur v) = v.
Proof.
  unfold write. destruct (strict_eq cur v) eqn:E; simpl; [|done].
  by apply strict_eq_true.
Qed.

Lemma write_same cur v : snd (write cur v) = false -> cur = v.
Proof.
  unfold write. destruct (strict_eq cur v) eqn:E; simpl; [|done].
  intros _. by apply strict_eq_true.
Qed.

Lemma setter_plain call cur arg :
  (forall f, arg <> VFun f) -> setter call cur arg = Normal (write cur arg).
Proof. intros H. destruct arg; try reflexivity. by destruct (H fid). Qed.

End SignalFacts.

(** ** The fetch state machine *)

Module FetchedFacts.
Import Fetched.

Section Machine.

Context {host : Host}.

(** *** Frame lemmas: which fields each operation leaves alone *)

Ltac frame :=
  intros;
  repeat match goal with
  | |- context [setState] => unfold setState
  | |- context [setLatest] => unfold setLatest
  | |- context [update] => unfold update
  | |- context [set_hasLatest] => unfold set_hasLatest
  | |- context [set_invalided] => unfold set_invalided
  | |- context [set_owner] => unfold set_owner
  | |- context [flush] => unfold flush
  | |- context [abort] => unfold abort
  | |- context [Signal.set_const] => unfold Signal.set_const, Signal.write
  end;
  repeat (case_bool_decide || case_match); simplify_eq/=; try done.

Lemma commit_body_frame k x s :
  invalided (commit_body k x s) = invalided s
  /\ init (commit_body k x s) = init s
  /\ alive (commit_body k x s) = alive s
  /\ passes (commit_body k x s) = passes s
  /\ error (commit_body k x s) = error s.
Proof. unfold commit_body. destruct (invalided s !! k) as [[]|]; frame. Qed.

Lemma commits_frame k xs s :
  let s' := fold_left (fun a x => commit_body k x a) xs s in
  invalided s' = invalided s /\ init s' = init s /\ alive s' = alive s
  /\ passes s' = passes s /\ error s' = error s.
Proof.
  revert s. induction xs as [|x xs IH]; intros s; simpl; [done|].
  destruct (IH (commit_body k x s)) as (-> & -> & -> & -> & ->).
  apply commit_body_frame.
Qed.

Lemma on_error_frame e s :
  let s' := state_of (on_error e s) in
  invalided s' = invalided s /\ init s' = init s /\ alive s' = alive s
  /\ passes s' = passes s /\ hasLatest s' = hasLatest s
  /\ latest s' = latest s /\ spool s' = spool s /\ state s' = Errored.
Proof.
  unfold on_error.
  destruct (Signal.setter call (error (setState Errored s)) e) as [[v c]|e'];
    simpl; frame.
Qed.

Lemma computation_frame s :
  let s' := state_of (computation s) in
  invalided s' = invalided s ++ [false] /\ init s' = init s
  /\ alive s' = alive s /\ passes s' = passes s.
Proof.
  unfold computation.
  set (k := length (invalided s)).
  set (s2 := setState _ _).
  pose proof (commits_frame k (commits (winch k)) s2) as (Hi & Hn & Ha & Hp & _).
  assert (invalided s2 = invalided s ++ [false] /\ init s2 = init s
          /\ alive s2 = alive s /\ passes s2 = passes s) as (E1 & E2 & E3 & E4)
    by (subst s2; frame).
  destruct (raised (winch k)) as [e|]; simpl.
  - pose proof (on_error_frame e (fold_left (fun a x => commit_body k x a)
                                    (commits (winch k)) s2))
      as (-> & -> & -> & -> & _).
    by rewrite Hi, Hn, Ha, Hp.
  - by rewrite Hi, Hn, Ha, Hp.
Qed.

Lemma settle_frame o :
  let s' := state_of (settle o) in
  invalided s' = invalided (state_of o) /\ init s' = init (state_of o)
  /\ alive s' = alive (state_of o) /\ dirty s' = false
  /\ state s' = state (state_of o) /\ latest s' = latest (state_of o)
  /\ error s' = error (state_of o) /\ spool s' = spool (state_of o)
  /\ hasLatest s' = hasLatest (state_of o).
Proof. destruct o as [s|e s]; simpl; frame. Qed.

Lemma flush_clean s : dirty s = false -> flush s = s.
Proof. unfold flush. by intros ->. Qed.

Lemma dirty_flush s : dirty (flush s) = false.
Proof. frame. Qed.

(** *** The invariant of the record *)

Lemma cleanup_flags s :
  (forall k, (S k < length (invalided s))%nat -> invalided s !! k = Some true) ->
  forall k, (k < length (invalided (cleanup s)))%nat ->
            invalided (cleanup s) !! k = Some true.
Proof.
  intros H k. unfold cleanup.
  destruct (invalided s) as [|b l] eqn:E.
  { rewrite E. simpl. lia. }
  assert (invalided (update VUndefined
            (set_invalided (<[pred (length (b :: l)) := true]> (b :: l)) s))
          = <[pred (length (b :: l)) := true]> (b :: l)) as -> by frame.
  rewrite length_insert. intros Hk.
  destruct (decide (k = pred (length (b :: l)))) as [->|Hne].
  - by apply list_lookup_insert_eq.
  - rewrite list_lookup_insert_ne by done. apply H. simpl in *. lia.
Qed.

Lemma cleanup_frame s :
  init (cleanup s) = init s /\ alive (cleanup s) = alive s
  /\ passes (cleanup s) = passes s /\ latest (cleanup s) = latest s
  /\ state (cleanup s) = state s /\ error (cleanup s) = error s
  /\ hasLatest (cleanup s) = hasLatest s
  /\ length (invalided (cleanup s)) = length (invalided s).
Proof.
  unfold cleanup. destruct (invalided s) as [|b l] eqn:E; [by rewrite E|].
  repeat split; try by frame.
  assert (invalided (update VUndefined
            (set_invalided (<[pred (length (b :: l)) := true]> (b :: l)) s))
          = <[pred (length (b :: l)) := true]> (b :: l)) as -> by frame.
  by rewrite length_insert.
Qed.

Lemma run_inv s :
  (forall k, (k < length (invalided s))%nat -> invalided s !! k = Some true) ->
  init s = false ->
  Inv (state_of (settle (computation s))).
Proof.
  intros Hall Hinit.
  pose proof (settle_frame (computation s)) as (Ei & En & _ & Ed & _).
  pose proof (computation_frame s) as (Ci & Cn & _).
  simpl in *. unfold Inv. rewrite Ei, En, Ci, Cn, Ed.
  split; [done|]. split; [|congruence].
  intros k Hk. rewrite length_app in Hk. simpl in Hk.
  rewrite lookup_app_l by lia. apply Hall. lia.
Qed.

Lemma wind_inv s : invalided s = [] -> Inv (state_of (wind s)).
Proof.
  intros E. unfold wind. apply run_inv.
  - assert (invalided (set_owner false true s) = invalided s) as -> by frame.
    rewrite E. simpl. lia.
  - frame.
Qed.

Lemma step_inv s e : Inv s -> Inv (step s e).
Proof.
  intros HI. pose proof HI as (Hd & Hf & Hi). destruct e as [|k x| |]; simpl.
  - unfold rerun. destruct (alive s && negb (init s)) eqn:E; [|exact HI].
    apply andb_true_iff in E as [_ E]. apply negb_true_iff in E.
    pose proof (cleanup_frame s) as (Ci & _).
    apply run_inv; [by apply cleanup_flags | congruence].
  - unfold commit.
    pose proof (commit_body_frame k x s) as (Ei & En & _).
    split; [apply dirty_flush|].
    assert (invalided (flush (commit_body k x s)) = invalided s) as ->
      by (rewrite <- Ei; frame).
    assert (init (flush (commit_body k x s)) = init s) as ->
      by (rewrite <- En; frame).
    done.
  - unfold fetched. destruct (init s) eqn:E; [|exact HI].
    apply wind_inv. by apply Hi.
  - unfold dispose. destruct (alive s) eqn:E; [|exact HI].
    set (s1 := set_owner (init s) false s).
    assert (invalided s1 = invalided s /\ init s1 = init s) as [E1 E2]
      by (subst s1; frame).
    pose proof (cleanup_frame s1) as (Ci & _ & _ & _ & _ & _ & _ & Cl).
    split; [apply dirty_flush|].
    assert (invalided (flush (cleanup s1)) = invalided (cleanup s1)) as -> by frame.
    assert (init (flush (cleanup s1)) = init (cleanup s1)) as -> by frame.
    split.
    + intros k Hk. apply cleanup_flags; [by rewrite E1 | lia].
    + rewrite Ci, E2. intros Ht. specialize (Hi Ht).
      unfold cleanup. rewrite E1, Hi. simpl. by rewrite ?E1.
Qed.

Lemma create_inv initial late : Inv (state_of (createFetched initial late)).
Proof.
  unfold createFetched. destruct late; [|by apply wind_inv].
  simpl. unfold Inv. simpl. split; [done|]. split; [|done].
  intros k Hk. simpl in Hk. lia.
Qed.

Lemma reachable_inv s : reachable s -> Inv s.
Proof. induction 1; [apply create_inv | by apply step_inv]. Qed.

Lemma exec_reachable s evs : reachable s -> reachable (exec s evs).
Proof.
  revert s. induction evs as [|e evs IH]; intros s H; simpl; [done|].
  apply IH. by constructor.
Qed.

(** *** Superseded commits *)

Lemma stale_commit s k x : Inv s -> superseded k s = true -> commit k x s = s.
Proof.
  intros (Hd & Hf & _) Hk. apply bool_decide_eq_true in Hk.
  unfold commit, commit_body. rewrite (Hf k Hk). by apply flush_clean.
Qed.

Lemma prune_exec s evs : Inv s -> exec s (prune s evs) = exec s evs.
Proof.
  revert s. induction evs as [|e evs IH]; intros s HI; [done|].
  destruct e as [|k x| |]; simpl;
    try (apply IH; by apply (step_inv _ Rerun) || by apply (step_inv _ Read)
                   || by apply (step_inv _ Dispose)).
  destruct (superseded k s) eqn:E.
  - rewrite (stale_commit s k x HI E). by apply IH.
  - simpl. apply IH. by apply (step_inv _ (Commit k x)).
Qed.

(** C1. Once a later run of the winch has started, the [update] function
    of an earlier run does nothing at all: the whole record, its
    notification log included, is the same after the call, and the final
    record of any sequence of events is the one obtained when the commits
    of superseded runs are left out. *)
Theorem superseded_commit_noop s evs :
  reachable s ->
  (forall k x, superseded k s = true ->
     commit k x s = s
     /\ state (commit k x s) = state s
     /\ latest (commit k x s) = latest s
     /\ fetched_value (commit k x s) = fetched_value s)
  /\ exec s evs = exec s (prune s evs).
Proof.
  intros Hr. pose proof (reachable_inv s Hr) as HI. split.
  - intros k x Hk. by rewrite (stale_commit s k x HI Hk).
  - symmetry. by apply prune_exec.
Qed.

(** *** What a step does to [hasLatest], [latest] and the reader *)

Lemma setState_fields x s :
  state (setState x s) = x /\ latest (setState x s) = latest s
  /\ spool (setState x s) = spool s /\ hasLatest (setState x s) = hasLatest s.
Proof. frame. Qed.

Lemma setLatest_fields x s :
  latest (setLatest x s) = x /\ state (setLatest x s) = state s
  /\ spool (setLatest x s) = spool s /\ hasLatest (setLatest x s) = hasLatest s.
Proof.
  unfold setLatest, Signal.set_const.
  pose proof (SignalFacts.write_val (latest s) x) as H.
  destruct (Signal.write (latest s) x); by simpl in *.
Qed.

Lemma update_fields x s :
  spool (update x s) = x /\ state (update x s) = state s
  /\ latest (update x s) = latest s /\ hasLatest (update x s) = hasLatest s.
Proof.
  unfold update, Signal.set_const.
  pose proof (SignalFacts.write_val (spool s) x) as H.
  destruct (Signal.write (spool s) x); by simpl in *.
Qed.

Lemma commit_body_accept k x s :
  invalided s !! k = Some false ->
  hasLatest (commit_body k x s) = true
  /\ latest (commit_body k x s) = x
  /\ spool (commit_body k x s) = x
  /\ state (commit_body k x s) = Ready.
Proof.
  intros E. unfold commit_body. rewrite E.
  set (s1 := setState Ready s). set (s2 := setLatest x s1).
  set (s3 := set_hasLatest true s2).
  destruct (update_fields x s3) as (-> & -> & -> & ->).
  destruct (setLatest_fields x s1) as (Hl & Hs & _).
  destruct (setState_fields Ready s) as (Hr & _).
  unfold s3, set_hasLatest. simpl. fold s2. unfold s2 at 1 2.
  rewrite Hl, Hs. unfold s1 at 1. by rewrite Hr.
Qed.

Lemma commit_body_reject k x s :
  invalided s !! k <> Some false -> commit_body k x s = s.
Proof. unfold commit_body. by destruct (invalided s !! k) as [[]|]. Qed.


Lemma on_error_quiet e s :
  hasLatest (state_of (on_error e s)) = hasLatest s
  /\ latest (state_of (on_error e s)) = latest s
  /\ spool (state_of (on_error e s)) = spool s.
Proof. by pose proof (on_error_frame e s) as (_ & _ & _ & _ & -> & -> & -> & _). Qed.

(** The body of the computation when the winch commits nothing before
    it returns. *)
Lemma computation_quiet s :
  commits (winch (length (invalided s))) = [] ->
  let s' := state_of (computation s) in
  hasLatest s' = hasLatest s /\ latest s' = latest s /\ spool s' = spool s
  /\ (raised (winch (length (invalided s))) = None ->
      state s' = if hasLatest s then Refreshing else Pending).
Proof.
  intros E. unfold computation. rewrite E. simpl fold_left. cbv zeta.
  set (s1 := set_invalided (invalided s ++ [false]) s).
  change (hasLatest s1) with (hasLatest s).
  set (s2 := setState (if hasLatest s then Refreshing else Pending) s1).
  assert (hasLatest s2 = hasLatest s /\ latest s2 = latest s
          /\ spool s2 = spool s
          /\ state s2 = if hasLatest s then Refreshing else Pending)
    as (H1 & H2 & H3 & H4).
  { destruct (setState_fields (if hasLatest s then Refreshing else Pending) s1)
      as (A & B & C & D).
    subst s2. rewrite A, B, C, D. by subst s1. }
  destruct (raised (winch (length (invalided s)))) as [e|].
  - destruct (on_error_quiet e s2) as (-> & -> & ->). by repeat split.
  - simpl. by repeat split.
Qed.


Lemma cleanup_spool s : invalided s <> [] -> spool (cleanup s) = VUndefined.
Proof.
  unfold cleanup. destruct (invalided s) as [|b l]; [done|]. intros _.
  apply update_fields.
Qed.

Lemma cleanup_spool_cases s :
  spool (cleanup s) = spool s \/ spool (cleanup s) = VUndefined.
Proof.
  destruct (invalided s) as [|b l] eqn:E.
  - left. unfold cleanup. by rewrite E.
  - right. apply cleanup_spool. by rewrite E.
Qed.

Lemma run_commits_cleanup s : run_commits (cleanup s) = run_commits s.
Proof.
  unfold run_commits.
  by pose proof (cleanup_frame s) as (_ & _ & _ & _ & _ & _ & _ & ->).
Qed.

Lemma quiet_step s e :
  accepts s e = false ->
  hasLatest (step s e) = hasLatest s
  /\ latest (step s e) = latest s
  /\ (spool (step s e) = spool s \/ spool (step s e) = VUndefined).
Proof.
  destruct e as [|k x| |]; simpl; intros Hq.
  - unfold rerun. destruct (alive s && negb (init s)) eqn:E; [|by auto].
    simpl in Hq. rewrite <- run_commits_cleanup in Hq. unfold run_commits in Hq.
    destruct (commits (winch (length (invalided (cleanup s))))) eqn:Ec; [|done].
    pose proof (computation_quiet (cleanup s) Ec) as (Hh & Hl & Hs & _).
    pose proof (settle_frame (computation (cleanup s)))
      as (_ & _ & _ & _ & _ & -> & _ & -> & ->).
    pose proof (cleanup_frame s) as (_ & _ & _ & Cl & _ & _ & Ch & _).
    simpl in *. rewrite Hh, Hl, Hs, Ch, Cl.
    split; [done|]. split; [done|]. apply cleanup_spool_cases.
  - apply bool_decide_eq_false in Hq. unfold commit.
    rewrite (commit_body_reject k x s Hq).
    repeat split; try by frame. left. frame.
  - unfold fetched. destruct (init s) eqn:E; [|by auto]. simpl in Hq.
    unfold wind.
    set (s1 := set_owner false true s).
    assert (run_commits s1 = run_commits s) as R by (subst s1; frame).
    rewrite <- R in Hq. unfold run_commits in Hq.
    destruct (commits (winch (length (invalided s1)))) eqn:Ec; [|done].
    pose proof (computation_quiet s1 Ec) as (Hh & Hl & Hs & _).
    pose proof (settle_frame (computation s1))
      as (_ & _ & _ & _ & _ & -> & _ & -> & ->).
    simpl in *. rewrite Hh, Hl, Hs. subst s1. repeat split; try by frame.
    left. frame.
  - unfold dispose. destruct (alive s) eqn:E; [|by auto].
    set (s1 := set_owner (init s) false s).
    pose proof (cleanup_frame s1) as (_ & _ & _ & Cl & _ & _ & Ch & _).
    assert (hasLatest (flush (cleanup s1)) = hasLatest (cleanup s1)) as -> by frame.
    assert (latest (flush (cleanup s1)) = latest (cleanup s1)) as -> by frame.
    assert (spool (flush (cleanup s1)) = spool (cleanup s1)) as -> by frame.
    rewrite Ch, Cl. subst s1. repeat split; try by frame.
    destruct (cleanup_spool_cases (set_owner (init s) false s)) as [->| ->];
      [left; frame | by right].
Qed.



Lemma step_init s e : init s = false -> init (step s e) = false.
Proof.
  intros Hi. destruct e as [|k x| |]; simpl.
  - unfold rerun. destruct (alive s && negb (init s)); [|done].
    pose proof (settle_frame (computation (cleanup s))) as (_ & -> & _).
    pose proof (computation_frame (cleanup s)) as (_ & Cn & _). simpl in Cn.
    rewrite Cn. by pose proof (cleanup_frame s) as (-> & _).
  - unfold commit. pose proof (commit_body_frame k x s) as (_ & En & _).
    rewrite <- Hi, <- En. frame.
  - unfold fetched. by rewrite Hi.
  - unfold dispose. destruct (alive s); [|done].
    assert (init (flush (cleanup (set_owner (init s) false s)))
            = init (cleanup (set_owner (init s) false s))) as -> by frame.
    pose proof (cleanup_frame (set_owner (init s) false s)) as (-> & _).
    rewrite <- Hi at 2. frame.
Qed.

Lemma snoc_flag_ne (l : list bool) b : l ++ [b] <> [].
Proof. by destruct l. Qed.

Lemma step_started s e : invalided s <> [] -> invalided (step s e) <> [].
Proof.
  intros Hne. destruct e as [|k x| |]; simpl.
  - unfold rerun. destruct (alive s && negb (init s)); [|done].
    pose proof (settle_frame (computation (cleanup s))) as (-> & _).
    pose proof (computation_frame (cleanup s)) as (Ci & _). simpl in Ci.
    rewrite Ci. apply snoc_flag_ne.
  - unfold commit. pose proof (commit_body_frame k x s) as (Ei & _).
    assert (invalided (flush (commit_body k x s)) = invalided (commit_body k x s))
      as -> by frame.
    by rewrite Ei.
  - unfold fetched. destruct (init s); [|done]. unfold wind.
    pose proof (settle_frame (computation (set_owner false true s))) as (-> & _).
    pose proof (computation_frame (set_owner false true s)) as (Ci & _).
    simpl in Ci. rewrite Ci. apply snoc_flag_ne.
  - unfold dispose. destruct (alive s); [|done].
    set (s1 := set_owner (init s) false s).
    assert (invalided (flush (cleanup s1)) = invalided (cleanup s1)) as -> by frame.
    pose proof (cleanup_frame s1) as (_ & _ & _ & _ & _ & _ & _ & Cl).
    assert (invalided s1 = invalided s) as E1 by (subst s1; frame).
    rewrite E1 in Cl. intros E0. rewrite E0 in Cl. simpl in Cl.
    by destruct (invalided s).
Qed.

(** Once the winch has been wound there is a current run. *)
Lemma reachable_started s : reachable s -> init s = false -> invalided s <> [].
Proof.
  induction 1 as [initial late|s e Hr IH].
  - unfold createFetched. destruct late; [done|]. intros _. unfold wind.
    pose proof (settle_frame
                  (computation (set_owner false true
                     (mkFetch Unresolved initial VUndefined initial false []
                        true true false [])))) as (-> & _).
    match goal with |- context [computation ?a] =>
      pose proof (computation_frame a) as (Ci & _) end.
    simpl in Ci. rewrite Ci. done.
  - intros Hi. destruct (init s) eqn:E.
    + destruct e as [|k x| |]; simpl in *.
      * unfold rerun in Hi. rewrite E, andb_false_r in Hi. simpl in Hi. congruence.
      * unfold commit in Hi. pose proof (commit_body_frame k x s) as (_ & En & _).
        assert (init (flush (commit_body k x s)) = init (commit_body k x s)) as Ef
          by frame.
        congruence.
      * unfold fetched. rewrite E. unfold wind.
        pose proof (settle_frame (computation (set_owner false true s))) as (-> & _).
        pose proof (computation_frame (set_owner false true s)) as (Ci & _).
        simpl in Ci. rewrite Ci. apply snoc_flag_ne.
      * unfold dispose in Hi. destruct (alive s); [|congruence].
        assert (init (flush (cleanup (set_owner (init s) false s)))
                = init (cleanup (set_owner (init s) false s))) as Ef by frame.
        pose proof (cleanup_frame (set_owner (init s) false s)) as (Cn & _).
        rewrite Ef, Cn in Hi. simpl in Hi. congruence.
    + apply step_started. by apply IH.
Qed.

Lemma quiet_trace s evs :
  init s = false -> spool s = VUndefined -> accepted s evs = false ->
  spool (exec s evs) = VUndefined /\ latest (exec s evs) = latest s
  /\ init (exec s evs) = false.
Proof.
  revert s. induction evs as [|e evs IH]; intros s Hi Hs Hq; [done|].
  simpl in Hq. apply orb_false_iff in Hq as [Hq1 Hq2].
  destruct (quiet_step s e Hq1) as (_ & Hl & Hsp).
  destruct (IH (step s e)) as (A & B & C);
    [by apply step_init | destruct Hsp; congruence | done |].
  change (exec s (e :: evs)) with (exec (step s e) evs).
  by rewrite A, B, C, Hl.
Qed.



(** What the [catch] block does with a thrown value that is not a
    function: the state is "errored", the error is the thrown value, the
    reader and [latest] are not written, and nothing is thrown again. *)
Lemma on_error_plain e s :
  (forall f, e <> VFun f) ->
  let o := on_error e s in
  crashed o = false /\ state (state_of o) = Errored /\ error (state_of o) = e
  /\ spool (state_of o) = spool s /\ latest (state_of o) = latest s
  /\ passes (state_of o) = passes s.
Proof.
  intros Hf. unfold on_error. rewrite (SignalFacts.setter_plain call _ e Hf).
  pose proof (SignalFacts.write_val (error (setState Errored s)) e) as Hw.
  destruct (Signal.write (error (setState Errored s)) e) as [v c]. simpl in *.
  subst v. repeat split; frame.
Qed.

(** A whole rerun whose winch throws such a value at once: one
    notification pass at most, showing "errored" and the thrown value. *)
Lemma rerun_raise_contained s e :
  reachable s -> alive s = true -> init s = false ->
  commits (winch (length (invalided s))) = [] ->
  raised (winch (length (invalided s))) = Some e ->
  (forall f, e <> VFun f) ->
  let o := rerun s in
  crashed o = false
  /\ state (state_of o) = Errored /\ error (state_of o) = e
  /\ latest (state_of o) = latest s
  /\ spool (state_of o) = spool (cleanup s)
  /\ (passes (state_of o) = passes s
      \/ passes (state_of o)
         = mkView Errored (latest s) e (spool (cleanup s)) :: passes s).
Proof.
  intros Hr Ha Hi Hc He Hf. unfold rerun. rewrite Ha, Hi. simpl.
  pose proof (cleanup_frame s) as (_ & _ & Cp & Cl & _ & _ & _ & Clen).
  rewrite <- Clen in Hc, He.
  unfold computation. rewrite Hc, He. simpl fold_left. cbv zeta.
  set (s2 := setState _ _).
  destruct (on_error_plain e s2 Hf) as (Hcr & Hst & Her & Hsp & Hla & Hpa).
  assert (spool s2 = spool (cleanup s) /\ latest s2 = latest (cleanup s)
          /\ passes s2 = passes (cleanup s)) as (E1 & E2 & E3) by (subst s2; frame).
  destruct (on_error e s2) as [s3|e' s3]; [|done]. simpl in *.
  split; [done|].
  assert (state (flush s3) = state s3 /\ error (flush s3) = error s3
          /\ latest (flush s3) = latest s3 /\ spool (flush s3) = spool s3)
    as (-> & -> & -> & ->) by frame.
  rewrite Hst, Her, Hla, Hsp, E1, E2, Cl. repeat split; try done.
  unfold flush, view. destruct (dirty s3); simpl.
  - right. by rewrite Hst, Her, Hla, Hsp, Hpa, E1, E2, E3, Cl, Cp.
  - left. by rewrite Hpa, E3, Cp.
Qed.

(** C9. When the current run is superseded (the computation reruns, or
    its owner is disposed of), the reader is reset to [undefined], and it
    stays so, while [latest] keeps the value it had, until a commit is
    accepted. *)
Theorem superseded_reader_undefined s e evs :
  reachable s -> alive s = true -> init s = false ->
  e = Rerun \/ e = Dispose ->
  accepted s (e :: evs) = false ->
  fetched_value (exec s (e :: evs)) = VUndefined
  /\ latest (exec s (e :: evs)) = latest s.
Proof.
  intros Hr Ha Hi He Hq.
  pose proof (reachable_started s Hr Hi) as Hne.
  simpl in Hq. apply orb_false_iff in Hq as [Hq1 Hq2].
  destruct (quiet_step s e Hq1) as (_ & Hl & _).
  assert (spool (step s e) = VUndefined) as Hs.
  { destruct He as [-> | ->]; simpl.
    - unfold rerun. rewrite Ha, Hi. simpl.
      simpl in Hq1. rewrite Ha, Hi in Hq1. simpl in Hq1.
      rewrite <- run_commits_cleanup in Hq1. unfold run_commits in Hq1.
      destruct (commits (winch (length (invalided (cleanup s))))) eqn:Ec; [|done].
      pose proof (computation_quiet (cleanup s) Ec) as (_ & _ & Hs & _).
      pose proof (settle_frame (computation (cleanup s)))
        as (_ & _ & _ & _ & _ & _ & _ & -> & _).
      simpl in Hs. rewrite Hs. by apply cleanup_spool.
    - unfold dispose. rewrite Ha.
      assert (spool (flush (cleanup (set_owner (init s) false s)))
              = spool (cleanup (set_owner (init s) false s))) as -> by frame.
      apply cleanup_spool. by assert (invalided (set_owner (init s) false s)
                                       = invalided s) as -> by frame. }
  change (exec s (e :: evs)) with (exec (step s e) evs).
  destruct (quiet_trace (step s e) evs) as (A & B & C);
    [by apply step_init | done | done |].
  unfold fetched_value, fetched. rewrite C. simpl. by rewrite A, B, Hl.
Qed.

End Machine.

(** *** Scenarios *)

(** The record starts unresolved; a winch that commits 42 at once leaves
    it ready with 42. *)
Example sync_commit_42 :
  let s := state_of (createFetched (host := commits_42) VUndefined false) in
  state s = Ready /\ latest s = VNum 42
  /\ fetched_value (host := commits_42) s = VNum 42.
Proof. by vm_compute. Qed.

Example late_starts_unresolved :
  let s := state_of (createFetched (host := commits_42) VUndefined true) in
  state s = Unresolved
  /\ fetched_value (host := commits_42) s = VNum 42
  /\ state (step (host := commits_42) s Read) = Ready.
Proof. by vm_compute. Qed.

(** Two runs back to back; the first run's commit arrives after the
    second run has started, then the second run's commit arrives. *)
Example two_runs_late_first_commit :
  let s0 := state_of (createFetched (host := asynchronous) VUndefined false) in
  let s := exec (host := asynchronous) s0
             [Rerun; Commit 0 (VNum 1); Commit 1 (VNum 2)] in
  state s = Ready /\ latest s = VNum 2 /\ spool s = VNum 2
  /\ s = exec (host := asynchronous) s0 [Rerun; Commit 1 (VNum 2)]
  /\ passes s = [mkView Ready (VNum 2) VUndefined (VNum 2);
                 mkView Pending VUndefined VUndefined VUndefined].
Proof. by vm_compute. Qed.

Lemma superseded_commit_noop_witness :
  let s := step (host := asynchronous)
             (state_of (createFetched (host := asynchronous) VUndefined false))
             Rerun in
  let evs := [Commit 0 (VNum 1); Commit 1 (VNum 2)] in
  superseded 0 s = true
  /\ ((forall k x, superseded k s = true ->
        commit k x s = s
        /\ state (commit k x s) = state s
        /\ latest (commit k x s) = latest s
        /\ fetched_value (host := asynchronous) (commit k x s)
           = fetched_value (host := asynchronous) s)
      /\ exec (host := asynchronous) s evs
         = exec (host := asynchronous) s (prune (host := asynchronous) s evs)).
Proof.
  split; [reflexivity|].
  apply (superseded_commit_noop (host := asynchronous)).
  apply reach_step, reach_create.
Defined.



Example rerun_after_success_enters_refreshing :
  let s0 := state_of (createFetched (host := commits_42) VUndefined false) in
  state (step (host := commits_42) s0 Rerun) = Refreshing.
Proof. by vm_compute. Qed.

(** C3 at a winch that throws a function: [setError(error)] calls the
    thrown function as an updater.  The error that is stored is what the
    function returns, not the thrown value, and when the function throws
    the exception leaves the [catch] block and the computation. *)
Theorem thrown_function_is_called :
  let o := createFetched (host := throws_seven) VUndefined false in
  let o' := createFetched (host := throws_thrower) VUndefined false in
  state (state_of o) = Errored
  /\ error (state_of o) = VNum 7
  /\ error (state_of o) <> VFun 0
  /\ o' = Crashed (VStr "again") (state_of o')
  /\ error (state_of o') = VUndefined.
Proof. vm_compute. by repeat split. Qed.

Example plain_error_is_stored :
  let o := createFetched (host := throws_boom) VUndefined false in
  crashed o = false /\ state (state_of o) = Errored
  /\ error (state_of o) = VStr "boom" /\ spool (state_of o) = VUndefined
  /\ passes (state_of o) = [mkView Errored VUndefined (VStr "boom") VUndefined].
Proof. by vm_compute. Qed.

Lemma superseded_reader_undefined_witness :
  let s := state_of (createFetched (host := commits_42) VUndefined false) in
  let evs := [Rerun; Commit 0 (VNum 1); Read] in
  (fetched_value (host := commits_42) s = VNum 42 /\ latest s = VNum 42)
  /\ (fetched_value (host := commits_42) (exec (host := commits_42) s evs)
      = VUndefined
      /\ latest (exec (host := commits_42) s evs) = latest s).
Proof.
  split; [by vm_compute|].
  apply (superseded_reader_undefined (host := commits_42));
    [apply reach_create | reflexivity | reflexivity | by left | reflexivity].
Defined.

End FetchedFacts.

(** ** The demand counter *)

Module QuantumFacts.
Import Quantum.

Section Counter.

Context {W D : Type} {world : World W D}.

Lemma exec_cons qw e evs : exec qw (e :: evs) = exec (step qw e) evs.
Proof. reflexivity. Qed.

Lemma counter_step_inv qw e : Inv (fst qw) -> Inv (fst (step qw e)).
Proof.
  destruct qw as [q w]. simpl. intros HI. pose proof HI as (Hc & Hz & Hp).
  destruct e as [[]| |]; simpl.
  - destruct (counter q =? 0) eqn:E.
    + apply Z.eqb_eq in E. destruct (track w) as [d w']. simpl.
      repeat split; simpl; [lia | lia | by eexists].
    + apply Z.eqb_neq in E. simpl. repeat split; simpl; [lia | lia |].
      intros _. apply Hp. lia.
  - done.
  - destruct (cleanups q) as [|n] eqn:E; simpl; [exact HI|].
    repeat split; simpl; [lia | done | done].
  - destruct (microtasks q) as [|n] eqn:E; simpl; [exact HI|].
    destruct (counter q - 1 =? 0) eqn:E0.
    + apply Z.eqb_eq in E0.
      destruct (dispose q); simpl; repeat split; simpl; try done; lia.
    + apply Z.eqb_neq in E0. simpl. repeat split; simpl; [lia | lia |].
      intros _. apply Hp. lia.
Qed.

Lemma exec_inv qw evs : Inv (fst qw) -> Inv (fst (exec qw evs)).
Proof.
  revert qw. induction evs as [|e evs IH]; intros qw HI; [done|].
  rewrite exec_cons. apply IH. by apply counter_step_inv.
Qed.

Lemma counter_reachable_inv qw : reachable qw -> Inv (fst qw).
Proof.
  induction 1 as [w|qw e _ IH|q w w' _ IH]; simpl in *.
  - repeat split; simpl; try done; lia.
  - by apply counter_step_inv.
  - done.
Qed.














(** What a step can do to the rest of the program: nothing, [track], or
    a disposal function. *)
Lemma step_world qw e :
  snd (step qw e) = snd qw
  \/ snd (step qw e) = snd (track (snd qw))
  \/ exists d, snd (step qw e) = run_dispose d (snd qw).
Proof.
  destruct qw as [q w]. destruct e as [[]| |]; simpl.
  - destruct (counter q =? 0); [|by left].
    right; left. by destruct (track w).
  - by left.
  - left. by destruct (cleanups q).
  - destruct (microtasks q); [by left|]. simpl.
    destruct (counter q - 1 =? 0); [|by left].
    destruct (dispose q) as [d|]; [|by left]. right; right. by exists d.
Qed.

End Counter.

(** *** Scenarios *)

(** The example of the documentation: a read under [createRoot], two
    reads in one [createComputed], then the root is disposed of. *)
Example documented_example :
  calls (fst (demo [Get false])) = []
  /\ calls (fst (demo [Get false; Get true; Get true])) = [Activate]
  /\ calls (fst (demo [Get false; Get true; Get true; Cleanup; Cleanup])) = [Activate]
  /\ calls (fst (demo [Get false; Get true; Get true; Cleanup; Cleanup;
                       Microtask; Microtask])) = [Deactivate; Activate].
Proof. by vm_compute. Qed.

(** A consumer reruns: its cleanup fires and it reads again before the
    queued decrement runs. *)
Example rerun_does_not_thrash :
  calls (fst (demo [Get true; Cleanup; Get true; Microtask])) = [Activate]
  /\ counter (fst (demo [Get true; Cleanup; Get true; Microtask])) = 1.
Proof. by vm_compute. Qed.



End QuantumFacts.

(** ** The subscription reconciler *)

Module SubscriptionFacts.
Import Subscription.

Section Reconciler.

Context {setup : Setup}.

(** *** The memo stays in step with its sources *)

Lemma fresh_setLocal x w : fresh w -> fresh (setLocal x w).
Proof.
  unfold fresh, setLocal, Signal.set_const, Signal.write, put_local, compare.
  intros H. destruct (strict_eq (local w) x); simpl.
  - rewrite orb_false_r. exact H.
  - by rewrite orb_true_r.
Qed.

Lemma fresh_setCache x w : fresh w -> fresh (setCache x w).
Proof.
  unfold fresh, setCache, Signal.set_const, Signal.write, compare.
  intros H. destruct (strict_eq (cache w) x); simpl.
  - rewrite orb_false_r. exact H.
  - by rewrite orb_true_r.
Qed.

Lemma fresh_setSubscribed b w : fresh w -> fresh (setSubscribed b w).
Proof. unfold setSubscribed. by case_bool_decide. Qed.

Lemma fresh_update remote w : fresh w -> fresh (snd (updateFromRemote_body remote w)).
Proof. intros H. simpl. by apply fresh_setCache, fresh_setLocal. Qed.

Lemma fresh_updates xs w :
  fresh w -> fresh (fold_left (fun a x => snd (updateFromRemote_body x a)) xs w).
Proof.
  revert w. induction xs as [|x xs IH]; intros w H; [done|].
  simpl. apply IH. by apply fresh_setCache, fresh_setLocal.
Qed.

Lemma fresh_track w : fresh w -> fresh (snd (track w)).
Proof. intros H. simpl. by apply fresh_setSubscribed, fresh_updates. Qed.

Lemma flush_inv w : fresh w -> Inv (flush w).
Proof.
  unfold fresh, Inv, flush, compare. simpl. intros H.
  repeat split. destruct (stale w); [done | by apply H].
Qed.

Lemma inv_fresh w : Inv w -> fresh w.
Proof. by intros (_ & _ & H) _. Qed.

Lemma flush_id w : Inv w -> flush w = w.
Proof.
  intros (Hs & Hd & _). unfold flush. rewrite Hs, Hd.
  destruct w; simpl in *; by subst.
Qed.

Lemma setter_unchanged cur arg v :
  Signal.setter call cur arg = Normal (v, false) -> v = cur.
Proof.
  unfold Signal.setter, Signal.write. intros H.
  destruct arg; try (destruct (strict_eq cur _); by simplify_eq).
  destruct (call fid cur) as [u|]; [|done].
  destruct (strict_eq cur u); by simplify_eq.
Qed.

Lemma set_inv arg w : Inv w -> Inv (snd (set arg w)).
Proof.
  intros HI. unfold set.
  destruct (Signal.setter call (local (set_hasLocal true w)) arg)
    as [[v changed]|e] eqn:E; simpl; [|exact HI].
  apply flush_inv. destruct HI as (Hs & _ & Hm).
  unfold fresh, put_local, compare in *. simpl in *. rewrite Hs. simpl.
  intros ->. apply setter_unchanged in E. by rewrite E.
Qed.

Lemma update_inv x w : Inv w -> Inv (snd (updateFromRemote x w)).
Proof.
  intros HI. unfold updateFromRemote. simpl.
  by apply flush_inv, fresh_setCache, fresh_setLocal, inv_fresh.
Qed.

Lemma qstep_inv s e : Inv (snd s) -> Inv (snd (qstep s e)).
Proof.
  intros HI. unfold qstep.
  destruct (QuantumFacts.step_world (world := sub_world) s e) as [E|[E|[d E]]];
    destruct (Quantum.step (world := sub_world) s e) as [q w]; simpl in *;
    subst w; apply flush_inv.
  - by apply inv_fresh.
  - by apply fresh_setSubscribed, fresh_updates, inv_fresh.
  - by apply fresh_setSubscribed, inv_fresh.
Qed.

Lemma sub_step_inv s e : Inv (snd s) -> Inv (snd (step s e)).
Proof.
  intros HI. destruct e as [l|arg|[v|]|x|x| | | |]; simpl;
    try (by apply qstep_inv); try (by apply update_inv); try done.
  - by apply set_inv.
  - unfold push. destruct (negb (hasLocal (snd s))); [done|].
    destruct HI as (? & ? & ?). by repeat split.
  - unfold detached. destruct HI as (Hs & ? & ?). by rewrite Hs.
Qed.

Lemma sub_create_inv initial : Inv (snd (createSubscription initial)).
Proof. by repeat split. Qed.

Lemma sub_reachable_inv s : reachable s -> Inv (snd s).
Proof. induction 1; [apply sub_create_inv | by apply sub_step_inv]. Qed.

(** *** What [updateFromRemote] writes *)

Lemma setLocal_fields x w :
  local (setLocal x w) = x /\ cache (setLocal x w) = cache w
  /\ hasLocal (setLocal x w) = hasLocal w /\ sent (setLocal x w) = sent w
  /\ subscribed (setLocal x w) = subscribed w /\ passes (setLocal x w) = passes w.
Proof.
  unfold setLocal, Signal.set_const.
  pose proof (SignalFacts.write_val (local w) x) as H.
  destruct (Signal.write (local w) x); by simpl in *.
Qed.

Lemma setCache_fields x w :
  cache (setCache x w) = x /\ local (setCache x w) = local w
  /\ hasLocal (setCache x w) = hasLocal w /\ sent (setCache x w) = sent w
  /\ subscribed (setCache x w) = subscribed w /\ passes (setCache x w) = passes w.
Proof.
  unfold setCache, Signal.set_const.
  pose proof (SignalFacts.write_val (cache w) x) as H.
  destruct (Signal.write (cache w) x); by simpl in *.
Qed.

Lemma remote_update_fields remote w :
  let r := reconciled remote w in
  let w' := snd (updateFromRemote remote w) in
  fst (updateFromRemote remote w) = r
  /\ local w' = r /\ cache w' = r /\ hasLocal w' = true
  /\ sent w' = sent w /\ subscribed w' = subscribed w
  /\ stale w' = false /\ dirty w' = false
  /\ (passes w' = passes w \/ passes w' = mkView r r (subscribed w) :: passes w).
Proof.
  unfold updateFromRemote, updateFromRemote_body. simpl.
  set (r := reconciled remote w).
  set (w1 := setLocal r (set_hasLocal true w)).
  destruct (setCache_fields r w1) as (Ec & El & Eh & Es & Eb & Ep).
  destruct (setLocal_fields r (set_hasLocal true w)) as (Fl & Fc & Fh & Fs & Fb & Fp).
  fold w1 in Fl, Fc, Fh, Fs, Fb, Fp.
  unfold flush, view. simpl. rewrite Ec, El, Eh, Es, Eb, Ep, Fl, Fh, Fs, Fb, Fp.
  simpl. repeat split; try done.
  destruct (dirty (setCache r w1)); by auto.
Qed.

Lemma detached_inv w : Inv w -> fst (detached w) = compare w.
Proof. intros (Hs & _ & Hm). unfold detached. by rewrite Hs. Qed.

Lemma detached_fresh w : fresh w -> fst (detached w) = compare w.
Proof.
  intros H. unfold detached. destruct (stale w) eqn:E; [done|]. by apply H.
Qed.

(** C6, as the code has it. [detached()] is [local() !== cache()] in
    every state of the subscription, and after a [pull()] that has
    completed it is [r !== r] for the reconciled value [r]: false unless
    [r] is [NaN]. *)
Theorem detached_is_local_neq_cache s remote :
  reachable s ->
  let r := reconciled remote (snd s) in
  fst (detached (snd s)) = strict_neq (local (snd s)) (cache (snd s))
  /\ fst (detached (pull (Now remote) (snd s))) = strict_neq r r
  /\ fst (detached (snd (step s (Resolve remote)))) = strict_neq r r
  /\ (r <> VNaN -> fst (detached (pull (Now remote) (snd s))) = false).
Proof.
  intros Hr r. pose proof (sub_reachable_inv s Hr) as HI.
  pose proof (update_inv remote (snd s) HI) as HI'.
  destruct (remote_update_fields remote (snd s)) as (_ & El & Ec & _).
  assert (fst (detached (snd (updateFromRemote remote (snd s)))) = strict_neq r r)
    as E by (rewrite (detached_inv _ HI'); unfold compare; by rewrite El, Ec).
  split; [by apply detached_inv|]. split; [exact E|]. split; [exact E|].
  intros Hn. etransitivity; [exact E|].
  unfold strict_neq. by rewrite strict_eq_refl.
Qed.

(** C7. A [pull()] that completes calls [reconcile] with the remote
    value, the current [local] and the current [cache], remote winning
    when there is no [reconcile]; it writes the result to [local] and to
    [cache] and sets [hasLocal], and observers are notified at most once,
    with both already written. *)
Theorem pull_reconciles s remote :
  reachable s ->
  let w := snd s in
  let r := match reconcile handler with
           | Some f => f remote (local w) (cache w)
           | None => remote
           end in
  let w' := pull (Now remote) w in
  snd (step s (Resolve remote)) = w'
  /\ local w' = r /\ cache w' = r /\ hasLocal w' = true
  /\ (passes w' = passes w \/ passes w' = mkView r r (subscribed w) :: passes w)
  /\ fst (detached w') = strict_neq r r
  /\ (reconcile handler = None -> r = remote).
Proof.
  intros Hr w r w'. pose proof (sub_reachable_inv s Hr) as HI.
  destruct (remote_update_fields remote w) as (_ & El & Ec & Eh & _ & _ & _ & _ & Ep).
  pose proof (update_inv remote w HI) as HI'.
  repeat split; try done.
  - change (fst (detached (snd (updateFromRemote remote w))) = strict_neq r r).
    rewrite (detached_inv _ HI'). unfold compare. by rewrite El, Ec.
  - subst r. by intros ->.
Qed.

(** The scenario of C7: identity reconciliation, [local] written to 5,
    then a pull that resolves with 9. *)
Lemma write_5_pull_9 initial :
  reconcile handler = None ->
  let s1 := step (createSubscription initial) (Assign (VNum 5)) in
  let s2 := step s1 (Resolve (VNum 9)) in
  local (snd s1) = VNum 5 /\ fst (detached (snd s1)) = true
  /\ local (snd s2) = VNum 9 /\ cache (snd s2) = VNum 9
  /\ fst (detached (snd s2)) = false.
Proof.
  intros Hn s1 s2.
  assert (reachable s1) as R1 by (apply reach_step, reach_create).
  pose proof (sub_reachable_inv s1 R1) as I1.
  assert (local (snd s1) = VNum 5 /\ cache (snd s1) = VUndefined) as [L1 C1].
  { subst s1. simpl. unfold set. rewrite SignalFacts.setter_plain by done.
    pose proof (SignalFacts.write_val (local (set_hasLocal true (createCells initial)))
                  (VNum 5)) as Hw.
    destruct (Signal.write _ _) as [v c]. simpl in *. by subst v. }
  destruct (remote_update_fields (VNum 9) (snd s1)) as (_ & El & Ec & _).
  pose proof (update_inv (VNum 9) (snd s1) I1) as I2.
  unfold reconciled in El, Ec. rewrite Hn in El, Ec.
  change (snd s2) with (snd (updateFromRemote (VNum 9) (snd s1))).
  rewrite (detached_inv _ I1), (detached_inv _ I2). unfold compare.
  rewrite L1, C1, El, Ec. by repeat split.
Qed.







End Reconciler.

(** *** Scenarios *)

Example local_5_then_pull_9 :
  let s1 := run plain_handler VUndefined [Assign (VNum 5)] in
  let s2 := run plain_handler VUndefined [Assign (VNum 5); Pull Promise; Resolve (VNum 9)] in
  fst (detached (snd s1)) = true
  /\ local (snd s2) = VNum 9 /\ cache (snd s2) = VNum 9
  /\ fst (detached (snd s2)) = false
  /\ passes (snd s2) = [mkView (VNum 9) (VNum 9) false;
                        mkView (VNum 5) VUndefined false].
Proof. by vm_compute. Qed.

Example custom_reconcile_sees_local_and_cache :
  let s := run keep_local_handler VUndefined
             [Pull (Now (VNum 1)); Assign (VNum 5); Pull (Now (VNum 1))] in
  local (snd s) = VNum 5 /\ cache (snd s) = VNum 5.
Proof. by vm_compute. Qed.

Example observed_subscription :
  let s1 := run storage_handler (VNum 0) [Call true] in
  let s2 := run storage_handler (VNum 0) [Call true; Cleanup; Microtask] in
  local (snd s1) = VNum 3 /\ cache (snd s1) = VNum 3 /\ subscribed (snd s1) = true
  /\ Quantum.calls (fst s1) = [Quantum.Activate]
  /\ subscribed (snd s2) = false
  /\ Quantum.calls (fst s2) = [Quantum.Deactivate; Quantum.Activate].
Proof. by vm_compute. Qed.

Example updater_write :
  let s := exec (setup := mkSetup increments plain_handler)
             (createSubscription (VNum 0)) [Assign (VFun 0)] in
  local (snd s) = VNum 1 /\ hasLocal (snd s) = true /\ fst (detached (snd s)) = true.
Proof. by vm_compute. Qed.

(** C6, as stated, fails: [get] returns [NaN], the pull completes, and
    [detached()] is true although [local] and [cache] hold the same
    value. *)
Lemma pull_nan_stays_detached :
  let w' := pull (setup := with_handler plain_handler) (Now VNaN)
              (snd (createSubscription VUndefined)) in
  local w' = VNaN /\ cache w' = VNaN /\ fst (detached w') = true
  /\ fst (detached w') <> false.
Proof. vm_compute. by repeat split. Qed.

Lemma detached_is_local_neq_cache_witness :
  let s := run plain_handler VUndefined [Assign (VNum 5)] in
  fst (detached (snd s)) = strict_neq (local (snd s)) (cache (snd s))
  /\ fst (detached (pull (setup := with_handler plain_handler)
                      (Now (VNum 9)) (snd s))) = false.
Proof.
  pose proof (detached_is_local_neq_cache (setup := with_handler plain_handler)
                (run plain_handler VUndefined [Assign (VNum 5)]) (VNum 9)
                (reach_step _ (Assign (VNum 5)) (reach_create VUndefined)))
    as (H1 & _ & _ & H2).
  split; [exact H1|]. by apply H2.
Defined.

Lemma pull_reconciles_witness :
  let s := run plain_handler VUndefined [Assign (VNum 5)] in
  let w' := pull (setup := with_handler plain_handler) (Now (VNum 9)) (snd s) in
  local w' = VNum 9 /\ cache w' = VNum 9 /\ hasLocal w' = true
  /\ fst (detached w') = false.
Proof.
  pose proof (pull_reconciles (setup := with_handler plain_handler)
                (run plain_handler VUndefined [Assign (VNum 5)]) (VNum 9)
                (reach_step _ (Assign (VNum 5)) (reach_create VUndefined)))
    as (_ & H1 & H2 & H3 & _ & H4 & _).
  split; [exact H1|]. split; [exact H2|]. split; [exact H3|]. exact H4.
Defined.

Example falsy_initial_push :
  step (setup := with_handler plain_handler) (createSubscription (VNum 0)) Push
  = createSubscription (VNum 0)
  /\ sent (snd (run plain_handler (VNum 0) [Assign (VNum 0); Push])) = [VNum 0]
  /\ sent (snd (run plain_handler (VNum 1) [Push])) = [VNum 1]
  /\ sent (snd (run plain_handler (VStr "") [Push])) = []
  /\ sent (snd (run plain_handler (VBool false) [Push])) = [].
Proof. by vm_compute. Qed.

End SubscriptionFacts.

(** ** More on the fetch state machine *)

Module FetchedMore.
Import Fetched FetchedFacts.

Ltac frame :=
  intros;
  repeat match goal with
  | |- context [setState] => unfold setState
  | |- context [setLatest] => unfold setLatest
  | |- context [update] => unfold update
  | |- context [set_hasLatest] => unfold set_hasLatest
  | |- context [set_invalided] => unfold set_invalided
  | |- context [set_owner] => unfold set_owner
  | |- context [flush] => unfold flush
  | |- context [abort] => unfold abort
  | |- context [Signal.set_const] => unfold Signal.set_const, Signal.write
  end;
  repeat (case_bool_decide || case_match); simplify_eq/=; try done.

Section Machine.

Context {host : Host}.

Lemma settled_commit k x s : settled s -> settled (commit_body k x s).
Proof.
  intros Hs. destruct (invalided s !! k) as [[]|] eqn:E;
    try (rewrite commit_body_reject; [done | by rewrite E]).
  destruct (commit_body_accept k x s E) as (Hh & Hl & Hp & Ht).
  unfold settled. rewrite Ht, Hh, Hl, Hp. by repeat split.
Qed.

Lemma settled_commits k xs s :
  settled s -> settled (fold_left (fun a x => commit_body k x a) xs s).
Proof.
  revert s. induction xs as [|x xs IH]; intros s Hs; [done|].
  simpl. by apply IH, settled_commit.
Qed.

Lemma settled_computation s : settled (state_of (computation s)).
Proof.
  unfold computation.
  set (k := length (invalided s)).
  set (s1 := set_invalided (invalided s ++ [false]) s).
  set (s2 := setState (if hasLatest s1 then Refreshing else Pending) s1).
  assert (settled s2) as H2.
  { destruct (setState_fields (if hasLatest s1 then Refreshing else Pending) s1)
      as (A & _ & _ & D).
    unfold settled. fold s2 in A, D. rewrite A, D.
    destruct (hasLatest s1); repeat split; try done; by intros [|]. }
  pose proof (settled_commits k (commits (winch k)) s2 H2) as H3.
  destruct (raised (winch k)) as [e|]; [|done].
  pose proof (on_error_frame e (fold_left (fun a x => commit_body k x a)
                                  (commits (winch k)) s2))
    as (_ & _ & _ & _ & _ & _ & _ & Ht).
  simpl in Ht. unfold settled. rewrite Ht. repeat split; try done; by intros [|].
Qed.

Lemma settled_settle o : settled (state_of o) -> settled (state_of (settle o)).
Proof.
  pose proof (settle_frame o) as (_ & _ & _ & _ & Et & El & _ & Es & Eh).
  simpl in *. unfold settled. by rewrite Et, El, Es, Eh.
Qed.

Lemma settled_shaped s : settled s -> invalided s <> [] -> shaped s.
Proof.
  intros (A & B & C & D) Hne. repeat split; try done; by intros _.
Qed.

Lemma run_shaped s : shaped (state_of (settle (computation s))).
Proof.
  apply settled_shaped; [apply settled_settle, settled_computation|].
  pose proof (settle_frame (computation s)) as (-> & _).
  pose proof (computation_frame s) as (-> & _). apply snoc_flag_ne.
Qed.

Lemma step_shaped s e : shaped s -> shaped (step s e).
Proof.
  intros HS. pose proof HS as (A & B & C & D).
  destruct e as [|k x| |]; simpl.
  - unfold rerun. destruct (alive s && negb (init s)); [apply run_shaped | exact HS].
  - unfold commit.
    assert (forall t, shaped t -> shaped (flush t)) as Hf.
    { intros t Ht. unfold shaped in *.
      assert (state (flush t) = state t /\ invalided (flush t) = invalided t
              /\ hasLatest (flush t) = hasLatest t /\ alive (flush t) = alive t
              /\ spool (flush t) = spool t /\ latest (flush t) = latest t)
        as (-> & -> & -> & -> & -> & ->) by frame.
      exact Ht. }
    apply Hf.
    destruct (invalided s !! k) as [[]|] eqn:E;
      try (rewrite commit_body_reject; [done | by rewrite E]).
    destruct (commit_body_accept k x s E) as (Hh & Hl & Hp & Ht).
    pose proof (commit_body_frame k x s) as (Ei & _).
    unfold shaped. rewrite Ht, Hh, Hl, Hp, Ei. repeat split; try done.
    intros Hnil. rewrite Hnil in E. done.
  - unfold fetched. destruct (init s); [apply run_shaped | exact HS].
  - unfold dispose. destruct (alive s) eqn:Ea; [|exact HS].
    set (s1 := set_owner (init s) false s).
    pose proof (cleanup_frame s1) as (_ & Ca & _ & _ & Ct & _ & Ch & Cl).
    assert (state (flush (cleanup s1)) = state s
            /\ hasLatest (flush (cleanup s1)) = hasLatest s
            /\ alive (flush (cleanup s1)) = false
            /\ length (invalided (flush (cleanup s1))) = length (invalided s))
      as (Et & Eh & Eal & Elen).
    { assert (state (flush (cleanup s1)) = state (cleanup s1)
              /\ hasLatest (flush (cleanup s1)) = hasLatest (cleanup s1)
              /\ alive (flush (cleanup s1)) = alive (cleanup s1)
              /\ invalided (flush (cleanup s1)) = invalided (cleanup s1))
        as (-> & -> & -> & ->) by frame.
      rewrite Ct, Ch, Ca, Cl. subst s1. by repeat split. }
    unfold shaped. rewrite Et, Eh, Eal. repeat split; try done.
    + intros Hu. apply A in Hu. rewrite Hu in Elen.
      by destruct (invalided (flush (cleanup s1))).
    + intros Hn. rewrite Hn in Elen. apply A.
      by destruct (invalided s).
Qed.

Lemma create_shaped initial late : shaped (state_of (createFetched initial late)).
Proof.
  unfold createFetched. destruct late; [|apply run_shaped].
  simpl. unfold shaped. simpl. repeat split; try done; by intros [|].
Qed.

(** X1. The state tells what has happened: it is "unresolved" exactly
    while the winch has never been called, "pending" only when no commit
    has been accepted yet, "refreshing" or "ready" only when one has, and
    while the computation is owned a "ready" record has the reader equal
    to [latest]. *)
Theorem state_tells_history s :
  reachable s ->
  (state s = Unresolved <-> invalided s = [])
  /\ (state s = Pending -> hasLatest s = false)
  /\ (state s = Refreshing \/ state s = Ready -> hasLatest s = true)
  /\ (alive s = true -> state s = Ready -> spool s = latest s).
Proof.
  induction 1 as [initial late|s e _ IH]; [apply create_shaped|].
  by apply step_shaped.
Qed.

(** X2. Only the latest run can still commit, and when it does the
    record is ready, [latest] and the reader hold the committed value,
    the error is untouched, and observers are notified at most once, with
    all of it already in place. *)
Theorem current_commit_applies s k x :
  reachable s -> invalided s !! k = Some false ->
  let s' := commit k x s in
  S k = length (invalided s)
  /\ state s' = Ready /\ latest s' = x /\ spool s' = x
  /\ hasLatest s' = true /\ error s' = error s
  /\ (passes s' = passes s
      \/ passes s' = mkView Ready x (error s) x :: passes s).
Proof.
  intros Hr E s'. pose proof (reachable_inv s Hr) as (Hd & Hf & _).
  destruct (commit_body_accept k x s E) as (Hh & Hl & Hp & Ht).
  pose proof (commit_body_frame k x s) as (_ & _ & _ & Epa & Eer).
  split.
  { pose proof (lookup_lt_Some _ _ _ E) as Hlt.
    destruct (decide (S k < length (invalided s))%nat) as [Hk|Hk]; [|lia].
    rewrite (Hf k Hk) in E. done. }
  subst s'. unfold commit, flush, view.
  destruct (dirty (commit_body k x s)); simpl;
    rewrite ?Ht, ?Hl, ?Hp, ?Hh, ?Eer, ?Epa; repeat split; auto.
Qed.

Lemma frozen_step s e :
  alive s = false -> init s = false -> dirty s = false ->
  (forall k, (k < length (invalided s))%nat -> invalided s !! k = Some true) ->
  step s e = s.
Proof.
  intros Ha Hi Hd Hf. destruct e as [|k x| |]; simpl.
  - unfold rerun. by rewrite Ha.
  - unfold commit. rewrite commit_body_reject; [by apply flush_clean|].
    destruct (invalided s !! k) as [b|] eqn:E; [|done].
    rewrite (Hf k (lookup_lt_Some _ _ _ E)) in E. by simplify_eq.
  - unfold fetched. by rewrite Hi.
  - unfold dispose. by rewrite Ha.
Qed.

(** X3. Disposal is final: once the owner of a wound record is disposed
    of, the reader is [undefined], the state stays what it was, and no
    later rerun, commit, read or disposal changes anything. *)
Theorem disposed_is_frozen s evs :
  reachable s -> alive s = true -> init s = false ->
  exec (dispose s) evs = dispose s
  /\ spool (dispose s) = VUndefined
  /\ state (dispose s) = state s /\ latest (dispose s) = latest s.
Proof.
  intros Hr Ha Hi. pose proof (reachable_inv s Hr) as (Hd & Hf & _).
  pose proof (reachable_started s Hr Hi) as Hne.
  unfold dispose. rewrite Ha.
  set (s1 := set_owner (init s) false s).
  assert (invalided s1 = invalided s) as E1 by (subst s1; frame).
  pose proof (cleanup_frame s1) as (Ci & Ca & _ & Cl & Ct & _ & _ & _).
  set (d := flush (cleanup s1)).
  assert (alive d = false /\ init d = false /\ dirty d = false
          /\ invalided d = invalided (cleanup s1) /\ spool d = spool (cleanup s1)
          /\ state d = state s /\ latest d = latest s)
    as (Da & Di & Dd & Dv & Ds & Dt & Dl).
  { assert (alive d = alive (cleanup s1) /\ init d = init (cleanup s1)
            /\ dirty d = false /\ invalided d = invalided (cleanup s1)
            /\ spool d = spool (cleanup s1) /\ state d = state (cleanup s1)
            /\ latest d = latest (cleanup s1))
      as (-> & -> & -> & -> & -> & -> & ->) by (subst d; frame).
    rewrite Ci, Ca, Ct, Cl. subst s1. by repeat split. }
  split; [|split; [|by split]].
  - induction evs as [|e evs IH]; [done|].
    change (exec d (e :: evs)) with (exec (step d e) evs).
    rewrite frozen_step; try done.
    rewrite Dv. apply cleanup_flags. by rewrite E1.
  - rewrite Ds. apply cleanup_spool. by rewrite E1.
Qed.

(** X16. A late record waits: until the accessor is read the winch is
    not called, the state stays "unresolved" and reruns and commits
    change nothing; the first read then starts the record exactly as an
    eager record starts when it is created. *)
Theorem late_waits_for_first_read initial evs :
  forallb idle evs = true ->
  let s0 := state_of (createFetched initial true) in
  exec s0 evs = s0
  /\ state s0 = Unresolved /\ invalided s0 = []
  /\ fetched (exec s0 evs) = createFetched initial false.
Proof.
  intros Hq s0.
  assert (exec s0 evs = s0) as E.
  { induction evs as [|e evs IH]; [done|].
    simpl in Hq. apply andb_true_iff in Hq as [He Hq].
    change (exec s0 (e :: evs)) with (exec (step s0 e) evs).
    assert (step s0 e = s0) as ->; [|by apply IH].
    destruct e as [|k x| |]; try done. }
  by rewrite E.
Qed.

End Machine.

Lemma late_waits_for_first_read_witness :
  let s0 := state_of (createFetched (host := commits_42) (VNum 0) true) in
  exec (host := commits_42) s0 [Rerun; Commit 0 (VNum 5); Rerun] = s0
  /\ fetched (host := commits_42) s0 = createFetched (host := commits_42) (VNum 0) false.
Proof.
  destruct (late_waits_for_first_read (host := commits_42) (VNum 0)
              [Rerun; Commit 0 (VNum 5); Rerun] eq_refl) as (H1 & _ & _ & H2).
  split; [exact H1|]. by rewrite H1 in H2.
Defined.

Lemma state_tells_history_witness :
  let s := exec (host := commits_42)
             (state_of (createFetched (host := commits_42) VUndefined false))
             [Rerun] in
  state s = Refreshing /\ hasLatest s = true.
Proof.
  split; [reflexivity|].
  apply (state_tells_history (host := commits_42));
    [apply reach_step, reach_create | by left].
Defined.

Lemma current_commit_applies_witness :
  let s := exec (host := asynchronous)
             (state_of (createFetched (host := asynchronous) VUndefined false))
             [Rerun] in
  state (commit 1 (VNum 2) s) = Ready /\ latest (commit 1 (VNum 2) s) = VNum 2.
Proof.
  pose proof (current_commit_applies (host := asynchronous)
                (exec (host := asynchronous)
                   (state_of (createFetched (host := asynchronous) VUndefined false))
                   [Rerun]) 1 (VNum 2)
                (reach_step _ Rerun (reach_create VUndefined false)) eq_refl)
    as (_ & H1 & H2 & _).
  by split.
Defined.

Lemma disposed_is_frozen_witness :
  let s := state_of (createFetched (host := commits_42) VUndefined false) in
  exec (host := commits_42) (dispose s) [Commit 0 (VNum 1); Rerun; Read; Dispose]
  = dispose s
  /\ spool (dispose s) = VUndefined /\ state (dispose s) = Ready.
Proof.
  pose proof (disposed_is_frozen (host := commits_42)
                (state_of (createFetched (host := commits_42) VUndefined false))
                [Commit 0 (VNum 1); Rerun; Read; Dispose]
                (reach_create VUndefined false) eq_refl eq_refl)
    as (H1 & H2 & H3 & _).
  split; [exact H1|]. split; [exact H2|]. exact H3.
Defined.

End FetchedMore.

(** ** More on the demand counter *)

Module QuantumMore.
Import Quantum QuantumFacts.

Section Counter.

Context {W D : Type} {world : World W D}.

(** X4. The counter is never negative: it is the number of registered
    cleanups plus the number of queued decrements, and a disposal
    function is stored exactly while it is positive. *)
Theorem counter_counts_consumers qw :
  reachable qw ->
  counter (fst qw) = Z.of_nat (cleanups (fst qw) + microtasks (fst qw))
  /\ 0 <= counter (fst qw)
  /\ (is_Some (dispose (fst qw)) <-> 0 < counter (fst qw)).
Proof.
  intros Hr. destruct (counter_reachable_inv qw Hr) as (Hc & Hz & Hp).
  split; [done|]. split; [lia|]. split; [|done].
  intros [d Hd]. destruct (decide (counter (fst qw) = 0)) as [E|E]; [|lia].
  rewrite (Hz E) in Hd. done.
Qed.

Lemma cleanups_fire n qw :
  cleanups (fst qw) = n ->
  let r := exec qw (repeat Cleanup n) in
  cleanups (fst r) = O /\ microtasks (fst r) = (microtasks (fst qw) + n)%nat
  /\ counter (fst r) = counter (fst qw) /\ dispose (fst r) = dispose (fst qw)
  /\ calls (fst r) = calls (fst qw) /\ snd r = snd qw.
Proof.
  revert qw. induction n as [|n IH]; intros qw Hn.
  - simpl. repeat split; try done; lia.
  - simpl repeat. cbv zeta. rewrite exec_cons.
    destruct qw as [q w]. simpl in *. rewrite Hn.
    match goal with |- context [exec ?a _] =>
      destruct (IH a) as (A & B & C & F & G & H); [done|] end.
    simpl in *. rewrite A, B, C, F, G, H. repeat split; try done; lia.
Qed.

Lemma drain_detached n qw :
  Inv (fst qw) -> cleanups (fst qw) = O -> microtasks (fst qw) = n ->
  let r := exec qw (repeat Microtask n) in
  counter (fst r) = 0 /\ dispose (fst r) = None
  /\ cleanups (fst r) = O /\ microtasks (fst r) = O
  /\ calls (fst r) = match n with
                     | O => calls (fst qw)
                     | S _ => Deactivate :: calls (fst qw)
                     end.
Proof.
  revert qw. induction n as [|n IH]; intros qw HI Hc Hm.
  - destruct HI as (Hcnt & Hz & _). simpl.
    assert (counter (fst qw) = 0) as E by lia. by rewrite (Hz E).
  - simpl repeat. cbv zeta. rewrite exec_cons.
    pose proof (counter_step_inv qw Microtask HI) as HI'.
    destruct qw as [q w]. simpl in *. rewrite Hm in *.
    destruct HI as (Hcnt & _ & Hp). unfold decrement in *. simpl in *.
    destruct (counter q - 1 =? 0) eqn:E0.
    + apply Z.eqb_eq in E0. assert (n = O) as -> by lia.
      destruct (Hp ltac:(lia)) as [d Hd]. rewrite Hd in *. simpl.
      by repeat split.
    + apply Z.eqb_neq in E0.
      match goal with |- context [exec ?a _] =>
        destruct (IH a) as (A & B & C & F & G); [done | done | done |] end.
      simpl in *. rewrite A, B, C, F, G. repeat split; try done.
      all: destruct n; [lia | done].
Qed.

(** X5. Nothing leaks: when every registered cleanup has fired and the
    queued decrements have run, the counter is zero, no disposal
    function is stored, and a counter that was active has called the
    disposal function exactly once. *)
Theorem detach_all_releases qw :
  reachable qw ->
  let r := drain (exec qw (repeat Cleanup (cleanups (fst qw)))) in
  counter (fst r) = 0 /\ dispose (fst r) = None
  /\ cleanups (fst r) = O /\ microtasks (fst r) = O
  /\ calls (fst r) = (if counter (fst qw) =? 0 then calls (fst qw)
                      else Deactivate :: calls (fst qw)).
Proof.
  intros Hr. pose proof (counter_reachable_inv qw Hr) as HI.
  destruct (cleanups_fire (cleanups (fst qw)) qw eq_refl)
    as (A & B & C & F & G & _).
  set (q1 := exec qw (repeat Cleanup (cleanups (fst qw)))) in *.
  assert (Inv (fst q1)) as HI1 by (by apply exec_inv).
  cbv zeta. unfold drain.
  destruct (drain_detached (microtasks (fst q1)) q1 HI1 A eq_refl)
    as (R1 & R2 & R3 & R4 & R5).
  rewrite R1, R2, R3, R4, R5, G. repeat split; try done.
  destruct HI as (Hc & _). rewrite B.
  destruct (counter (fst qw) =? 0) eqn:E.
  - apply Z.eqb_eq in E.
    assert ((microtasks (fst qw) + cleanups (fst qw))%nat = O) as -> by lia. done.
  - apply Z.eqb_neq in E.
    destruct (microtasks (fst qw) + cleanups (fst qw))%nat eqn:En; [lia | done].
Qed.

End Counter.

Lemma counter_counts_consumers_witness :
  let qw := demo [Get true; Get true; Cleanup] in
  counter (fst qw) = 2 /\ 0 <= counter (fst qw).
Proof.
  split; [reflexivity|].
  apply (counter_counts_consumers (world := still)).
  apply reach_step, reach_step, reach_step, reach_quantum.
Defined.

Lemma detach_all_releases_witness :
  let qw := demo [Get true; Get true; Cleanup] in
  let r := drain (world := still)
             (exec (world := still) qw (repeat Cleanup (cleanups (fst qw)))) in
  counter (fst r) = 0 /\ dispose (fst r) = None.
Proof.
  pose proof (detach_all_releases (world := still)
                (demo [Get true; Get true; Cleanup])
                (reach_step _ Cleanup
                   (reach_step _ (Get true)
                      (reach_step _ (Get true) (reach_quantum (VNum 0))))))
    as (H1 & H2 & _).
  by split.
Defined.

End QuantumMore.

(** ** More on the subscription reconciler *)

Module SubscriptionMore.
Import Subscription SubscriptionFacts.

Section Reconciler.

Context {setup : Setup}.

Lemma flush_channel w :
  subscribed (flush w) = subscribed w /\ subs (flush w) = subs w
  /\ local (flush w) = local w /\ cache (flush w) = cache w.
Proof. done. Qed.

Lemma setLocal_channel x w :
  subscribed (setLocal x w) = subscribed w /\ subs (setLocal x w) = subs w.
Proof.
  unfold setLocal, Signal.set_const. by destruct (Signal.write (local w) x).
Qed.

Lemma setCache_channel x w :
  subscribed (setCache x w) = subscribed w /\ subs (setCache x w) = subs w.
Proof.
  unfold setCache, Signal.set_const. by destruct (Signal.write (cache w) x).
Qed.

Lemma body_channel x w :
  subscribed (snd (updateFromRemote_body x w)) = subscribed w
  /\ subs (snd (updateFromRemote_body x w)) = subs w
  /\ local (snd (updateFromRemote_body x w))
     = cache (snd (updateFromRemote_body x w)).
Proof.
  simpl.
  destruct (setCache_channel (reconciled x w)
              (setLocal (reconciled x w) (set_hasLocal true w))) as (-> & ->).
  destruct (setLocal_channel (reconciled x w) (set_hasLocal true w)) as (-> & ->).
  destruct (setCache_fields (reconciled x w)
              (setLocal (reconciled x w) (set_hasLocal true w))) as (-> & -> & _).
  destruct (setLocal_fields (reconciled x w) (set_hasLocal true w)) as (-> & _).
  done.
Qed.

Lemma bodies_channel xs w :
  let w' := fold_left (fun a x => snd (updateFromRemote_body x a)) xs w in
  subscribed w' = subscribed w /\ subs w' = subs w
  /\ (local w = cache w -> local w' = cache w').
Proof.
  revert w. induction xs as [|x xs IH]; intros w; simpl; [done|].
  destruct (IH (snd (updateFromRemote_body x w))) as (A & B & C).
  destruct (body_channel x w) as (E1 & E2 & E3). simpl in *.
  rewrite A, B, E1, E2. repeat split; try done. intros _. by apply C.
Qed.

Lemma setSubscribed_channel b w :
  subscribed (setSubscribed b w) = b /\ subs (setSubscribed b w) = subs w
  /\ local (setSubscribed b w) = local w /\ cache (setSubscribed b w) = cache w.
Proof. unfold setSubscribed. by case_bool_decide. Qed.

Lemma track_channel w :
  subscribed (snd (track w)) = true /\ subs (snd (track w)) = S (subs w)
  /\ (local w = cache w -> local (snd (track w)) = cache (snd (track w))).
Proof.
  unfold track. simpl.
  set (w1 := mkCells _ _ _ _ _ _ _ _ _ _).
  destruct (bodies_channel (sub_pushes handler (subs w)) w1) as (A & B & C).
  match goal with |- context [setSubscribed true ?a] =>
    destruct (setSubscribed_channel true a) as (-> & -> & -> & ->) end.
  split; [done|]. split; [exact B | exact C].
Qed.

Lemma set_channel arg w :
  subscribed (snd (set arg w)) = subscribed w /\ subs (snd (set arg w)) = subs w
  /\ cache (snd (set arg w)) = cache w.
Proof.
  unfold set.
  by destruct (Signal.setter call (local (set_hasLocal true w)) arg) as [[v c]|e].
Qed.

Lemma update_channel x w :
  subscribed (snd (updateFromRemote x w)) = subscribed w
  /\ subs (snd (updateFromRemote x w)) = subs w
  /\ local (snd (updateFromRemote x w)) = cache (snd (updateFromRemote x w)).
Proof.
  unfold updateFromRemote.
  destruct (body_channel x w) as (A & B & C).
  destruct (updateFromRemote_body x w) as [r w']. simpl in *. by rewrite A, B, C.
Qed.

Lemma qstep_linked s e : linked s -> linked (qstep s e).
Proof.
  intros (HI & Hs & Hn).
  pose proof (QuantumFacts.counter_step_inv (world := sub_world) s e HI) as HI'.
  destruct s as [q w]. unfold qstep, linked in *. simpl in *.
  destruct HI as (Hc & Hz & Hp).
  destruct e as [[]| |]; simpl in *.
  - destruct (Quantum.counter q =? 0) eqn:E; simpl in *.
    + apply Z.eqb_eq in E. destruct (track_channel w) as (A & B & _).
      simpl in *. split; [done|]. rewrite A, B, Hn, E. simpl.
      unfold Quantum.activations. simpl. done.
    + apply Z.eqb_neq in E. split; [done|]. rewrite Hs, Hn.
      assert ((Quantum.counter q + 1 =? 0) = false) as -> by (apply Z.eqb_neq; lia).
      done.
  - done.
  - destruct (Quantum.cleanups q); simpl in *; (split; [exact HI'|]); by split.
  - destruct (Quantum.microtasks q) as [|n] eqn:Em; simpl in *;
      [split; [exact HI'|]; by split|].
    unfold Quantum.decrement in *. simpl in *.
    destruct (Quantum.counter q - 1 =? 0) eqn:E0; simpl in *.
    + apply Z.eqb_eq in E0. destruct (Hp ltac:(lia)) as [d Hd].
      rewrite Hd in *. simpl in *. split; [done|].
      unfold untrack_.
      destruct (setSubscribed_channel false w) as (-> & -> & _).
      rewrite E0, Hn. done.
    + split; [done|]. rewrite Hs, Hn, E0. apply Z.eqb_neq in E0.
      assert ((Quantum.counter q =? 0) = false) as -> by (apply Z.eqb_neq; lia).
      done.
Qed.

Lemma linked_frame s w' :
  linked s -> subscribed w' = subscribed (snd s) -> subs w' = subs (snd s) ->
  linked (fst s, w').
Proof. intros (HI & Hs & Hn) A B. unfold linked. simpl. by rewrite A, B. Qed.

Lemma step_linked s e : linked s -> linked (step s e).
Proof.
  intros HL.
  destruct e as [l|arg|[v|]|x|x| | | |];
    try (by apply qstep_linked);
    try (apply linked_frame; [done | apply update_channel | apply update_channel]).
  - apply linked_frame; [done | apply set_channel | apply set_channel].
  - by destruct s.
  - apply linked_frame; [done| |]; unfold push; by destruct (hasLocal (snd s)) eqn:E.
  - apply linked_frame; [done| |]; unfold detached; by destruct (stale (snd s)).
Qed.

(** X6. [subscribed()] is true exactly while the counter of the reader
    is positive, and [handler.sub] has been called once for every
    activation of the counter. *)
Theorem subscribed_iff_observed s :
  reachable s ->
  subscribed (snd s) = negb (Quantum.counter (fst s) =? 0)
  /\ subs (snd s) = Quantum.activations (fst s)
  /\ 0 <= Quantum.counter (fst s).
Proof.
  intros Hr.
  assert (linked s) as (HI & Hs & Hn).
  { induction Hr as [initial|s e _ IH]; [|by apply step_linked].
    unfold linked. simpl. repeat split; try done; simpl; lia. }
  destruct HI as (Hc & _). repeat split; try done. lia.
Qed.



(** X17. A direct write of a value that is not a function returns and
    stores that value, marks [local] as initialized, and leaves
    [detached()] telling whether the written value differs from the last
    remote value. *)
Theorem write_shows_divergence s v :
  reachable s -> (forall f, v <> VFun f) ->
  let s' := step s (Assign v) in
  fst (set v (snd s)) = Normal v
  /\ local (snd s') = v /\ cache (snd s') = cache (snd s)
  /\ hasLocal (snd s') = true
  /\ fst (detached (snd s')) = strict_neq v (cache (snd s)).
Proof.
  intros Hr Hf. cbv zeta. set (s' := step s (Assign v)).
  pose proof (sub_step_inv s (Assign v) (sub_reachable_inv s Hr)) as HI.
  fold s' in HI.
  assert (fst (set v (snd s)) = Normal v /\ local (snd s') = v
          /\ cache (snd s') = cache (snd s) /\ hasLocal (snd s') = true)
    as (A & B & C & D).
  { subst s'. simpl. unfold set. rewrite SignalFacts.setter_plain by done.
    pose proof (SignalFacts.write_val (local (set_hasLocal true (snd s))) v) as Hw.
    destruct (Signal.write _ _) as [u c]. simpl in *. by subst u. }
  repeat split; try done.
  rewrite (detached_inv _ HI). unfold compare. by rewrite B, C.
Qed.

End Reconciler.

Lemma write_shows_divergence_witness :
  let s := run plain_handler VUndefined [Pull (Now (VNum 9))] in
  fst (detached (snd (step (setup := with_handler plain_handler) s
                        (Assign (VNum 9))))) = false
  /\ fst (detached (snd (step (setup := with_handler plain_handler) s
                         (Assign (VNum 5))))) = true.
Proof.
  split.
  - by destruct (write_shows_divergence (setup := with_handler plain_handler)
                   (run plain_handler VUndefined [Pull (Now (VNum 9))]) (VNum 9)
                   (reach_step _ (Pull (Now (VNum 9))) (reach_create VUndefined))
                   ltac:(done)) as (_ & _ & _ & _ & ->).
  - by destruct (write_shows_divergence (setup := with_handler plain_handler)
                   (run plain_handler VUndefined [Pull (Now (VNum 9))]) (VNum 5)
                   (reach_step _ (Pull (Now (VNum 9))) (reach_create VUndefined))
                   ltac:(done)) as (_ & _ & _ & _ & ->).
Defined.

Lemma subscribed_iff_observed_witness :
  let s := run storage_handler (VNum 0) [Call true; Call true; Cleanup] in
  subscribed (snd s) = true /\ Quantum.counter (fst s) = 2
  /\ subs (snd s) = Quantum.activations (fst s).
Proof.
  pose proof (subscribed_iff_observed (setup := with_handler storage_handler)
                (run storage_handler (VNum 0) [Call true; Call true; Cleanup])
                (reach_step _ Cleanup
                   (reach_step _ (Call true)
                      (reach_step _ (Call true) (reach_create (VNum 0))))))
    as (H1 & H2 & _).
  split; [exact H1|]. split; [reflexivity | exact H2].
Defined.


End SubscriptionMore.

(** ** Signals with options, [sameObjectExclusionComparator], [granular] *)

Module CellFacts.
Import Cell.

Lemma strict_eq_iff a b : strict_eq a b = true <-> a = b /\ b <> VNaN.
Proof.
  split.
  - intros H. pose proof (strict_eq_true a b H) as ->. split; [done|].
    intros ->. done.
  - intros [-> H]. by apply strict_eq_refl.
Qed.

Lemma sound_default : sound EqDefault.
Proof. intros a b H. by apply strict_eq_true. Qed.

Lemma sound_false : sound EqFalse.
Proof. by intros a b H. Qed.

Lemma sound_same_object_exclusion : sound (EqCustom sameObjectExclusionComparator).
Proof.
  intros a b H. simpl in H. unfold sameObjectExclusionComparator in H.
  apply andb_true_iff in H as [_ H]. by apply strict_eq_true.
Qed.

Lemma write_value eq v c : sound eq -> value (write eq v c) = v.
Proof.
  intros Hs. unfold write. destruct (equal_by eq (value c) v) eqn:E; [|done].
  by apply Hs.
Qed.

Lemma write_silent eq v c : write eq v c = c <-> equal_by eq (value c) v = true.
Proof.
  unfold write. destruct (equal_by eq (value c) v); split; try done.
  destruct c as [u n]. simpl. intros H. injection H as _ H. lia.
Qed.

(** X8. [sameObjectExclusionComparator] says "equal" exactly for two
    strictly equal values that are not of type "object": never for an
    object, and never for [null].  A signal that uses it notifies its
    observers when it is given the value it already holds exactly when
    that value is an object, [null] or [NaN]. *)
Theorem same_object_exclusion prev next c :
  (sameObjectExclusionComparator prev next = true
   <-> prev = next /\ typeof_ next <> "object" /\ next <> VNaN)
  /\ (write (EqCustom sameObjectExclusionComparator) (value c) c = c
      <-> typeof_ (value c) <> "object" /\ value c <> VNaN)
  /\ sameObjectExclusionComparator VNull VNull = false
  /\ (forall r, sameObjectExclusionComparator (VObj r) (VObj r) = false).
Proof.
  assert (forall a b, sameObjectExclusionComparator a b = true
                      <-> a = b /\ typeof_ b <> "object" /\ b <> VNaN) as H.
  { intros a b. unfold sameObjectExclusionComparator.
    rewrite andb_true_iff, negb_true_iff, bool_decide_eq_false, strict_eq_iff.
    tauto. }
  split; [apply H|]. split; [|by split].
  rewrite write_silent. simpl. rewrite H. tauto.
Qed.

(** X9. [granular(setter).set(value)] stores [value] itself, also when
    it is a function, whereas the setter given the same function calls
    it and stores what it returns. *)
Theorem granular_set_is_literal call eq v c :
  sound eq ->
  value (Granular.set eq v c) = v
  /\ (forall f u, v = VFun f -> call f (value c) = Normal u ->
      value (snd (setter call eq v c)) = u).
Proof.
  intros Hs. split.
  - unfold Granular.set, apply_updater. simpl. by apply write_value.
  - intros f u -> Hu. unfold setter, apply_updater. rewrite Hu. simpl.
    by apply write_value.
Qed.

(** X10. [granular(setter).mod(fn)] returns what [fn] returns and leaves
    the signal holding the same value; observers are notified exactly
    when the signal's comparator does not call that value equal to
    itself.  With the default comparator they are therefore not notified
    (unless the value is [NaN]), and with
    [sameObjectExclusionComparator] they are for every object. *)
Theorem granular_mod_keeps_value call eq fn c :
  let r := Granular.mod_ call eq fn c in
  fst r = call fn (value c)
  /\ value (snd r) = value c
  /\ notified (snd r)
     = match call fn (value c) with
       | Normal _ =>
           if equal_by eq (value c) (value c) then notified c
           else S (notified c)
       | Throw _ => notified c
       end
  /\ (eq = EqDefault -> value c <> VNaN -> snd r = c)
  /\ (eq = EqCustom sameObjectExclusionComparator ->
      typeof_ (value c) = "object" ->
      forall u, call fn (value c) = Normal u ->
      notified (snd r) = S (notified c)).
Proof.
  unfold Granular.mod_, apply_updater. simpl.
  destruct (call fn (value c)) as [u|e] eqn:E; simpl.
  - unfold write. split; [done|]. split; [by destruct (equal_by _ _ _)|].
    split; [by destruct (equal_by _ _ _)|]. split.
    + intros -> Hn. simpl. by rewrite strict_eq_refl.
    + intros -> Ht u' _. simpl. unfold sameObjectExclusionComparator.
      rewrite Ht. done.
  - by repeat split.
Qed.

Lemma granular_set_is_literal_witness :
  value (Granular.set EqDefault (VFun 0) (createSignal (VNum 1))) = VFun 0
  /\ value (snd (setter Subscription.increments EqDefault (VFun 0)
                   (createSignal (VNum 1)))) = VNum 2.
Proof.
  destruct (granular_set_is_literal Subscription.increments EqDefault (VFun 0)
              (createSignal (VNum 1)) sound_default) as (H1 & H2).
  split; [exact H1|]. by apply (H2 O).
Defined.

End CellFacts.

(** ** [atom] and [asig] *)

Module AtomFacts.
Import Cell Atom CellFacts.

(** X11. An atomic signal reads when it is called with no argument and
    writes when it is called with one, whatever that argument is
    ([undefined] included): a value that is not a function is returned,
    stored, and read back by the next call without arguments. *)
Theorem asig_write_then_read call eq v rest c :
  sound eq -> (forall f, v <> VFun f) ->
  let c' := snd (asig call eq (v :: rest) c) in
  fst (asig call eq (v :: rest) c) = Normal v
  /\ asig call eq [] c' = (Normal v, c')
  /\ asig call eq [] c = (Normal (value c), c).
Proof.
  intros Hs Hf. unfold asig, atom, item. simpl.
  assert (setter call eq v c = (Normal v, write eq v c)) as ->
    by (destruct v; try done; by destruct (Hf fid)).
  simpl. by rewrite write_value.
Qed.

(** X12. Under [isDev], [atom] accepts exactly the arrays whose first
    two items are functions; anything else is refused at once with an
    error. *)
Theorem atom_accepts_function_pairs signal :
  atom_check true signal = None
  <-> exists g s rest, signal = ArrayOf (VFun g :: VFun s :: rest).
Proof.
  split.
  - destruct signal as [v|items]; simpl; [done|].
    destruct items as [|[] [|[] rest]]; simpl; try done.
    intros _. by eexists _, _, _.
  - by intros (g & s & rest & ->).
Qed.

Lemma asig_write_then_read_witness :
  let c := createSignal (VNum 3) in
  let c' := snd (asig Fetched.no_closures EqDefault [VUndefined] c) in
  asig Fetched.no_closures EqDefault [] c' = (Normal VUndefined, c').
Proof.
  by destruct (asig_write_then_read Fetched.no_closures EqDefault VUndefined []
                 (createSignal (VNum 3)) sound_default ltac:(done))
    as (_ & H & _).
Defined.

Example atom_error_messages :
  atom_check true (Plain VNull)
  = Some "expected signal to be an array, but got object"%string
  /\ atom_check true (ArrayOf [VFun 0])
     = Some "expected setter to be a function, but got undefined"%string
  /\ atom_check true (ArrayOf [VNum 1; VFun 0])
     = Some "expected getter to be a function, but got number"%string.
Proof. by vm_compute. Qed.

End AtomFacts.

(** ** [createBlinker] *)

Module BlinkerFacts.
Import Cell Blinker CellFacts.

Lemma keep_others (t : nat) : filter (fun i => i <> t) [t] = [].
Proof. by rewrite filter_cons_False, filter_nil by (intros H; by apply H). Qed.

Lemma changed_consistent b : consistent b -> consistent (changed b).
Proof.
  unfold consistent, changed. destruct (timeout b) as [t|]; simpl.
  - intros (Ht & Hv). rewrite Ht, keep_others. by split.
  - intros (Ht & Hv). rewrite Ht. split; [done|].
    by apply write_value, sound_default.
Qed.

Lemma fire_other id b :
  consistent b -> timeout b <> Some id -> fire id b = b.
Proof.
  intros (Ht & _) Hne. unfold fire. rewrite Ht.
  rewrite bool_decide_eq_false_2; [done|].
  destruct (timeout b) as [t|].
  - rewrite list_elem_of_singleton. intros ->. done.
  - apply not_elem_of_nil.
Qed.

Lemma fire_current t b :
  consistent b -> timeout b = Some t ->
  fire t b = mkBlinker (write EqDefault (VBool false) (flagged b)) None []
               (next_id b).
Proof.
  intros (Ht & _) Et. unfold fire. rewrite Ht, Et.
  rewrite bool_decide_eq_true_2 by (by apply list_elem_of_singleton).
  by rewrite keep_others.
Qed.

Lemma fire_consistent id b : consistent b -> consistent (fire id b).
Proof.
  intros H. destruct (decide (timeout b = Some id)) as [E|E].
  - rewrite (fire_current id b H E). unfold consistent. simpl.
    split; [done|]. by apply write_value, sound_default.
  - by rewrite fire_other.
Qed.

Lemma exec_consistent b evs : consistent b -> consistent (exec b evs).
Proof.
  revert b. induction evs as [|e evs IH]; intros b H; [done|].
  simpl. apply IH. destruct e; [by apply changed_consistent | by apply fire_consistent].
Qed.

(** X13. The blinker does not blink when it is created.  At any time
    the flag is true exactly while a timer is pending, at most one timer
    is pending, and only that timer can reset the flag: a timer that was
    replaced by a later change does nothing.  A change sets the flag, and
    while the flag is already set it only replaces the timer, without a
    new notification. *)
Theorem blinker_holds_one_timer isDev subject duration b0 evs :
  createBlinker isDev subject duration = inr b0 ->
  let b := exec b0 evs in
  blinking b0 = VBool false
  /\ timers b = match timeout b with Some t => [t] | None => [] end
  /\ blinking b = VBool (bool_decide (is_Some (timeout b)))
  /\ blinking (step b Changed) = VBool true
  /\ (forall id, timeout b <> Some id -> step b (Fire id) = b)
  /\ (forall t, timeout b = Some t ->
      blinking (step b (Fire t)) = VBool false
      /\ flagged (step b Changed) = flagged b).
Proof.
  intros Hc b.
  assert (b0 = mkBlinker (createSignal (VBool false)) None [] 1) as ->.
  { unfold createBlinker in Hc. repeat case_match; by simplify_eq. }
  assert (consistent b) as Hb by (by apply exec_consistent).
  pose proof (changed_consistent b Hb) as Hch.
  split; [done|]. split; [apply Hb|]. split; [apply Hb|]. split.
  { change (step b Changed) with (changed b). destruct Hch as (_ & ->).
    unfold changed. by destruct (timeout b). }
  split.
  - intros id Hid. by apply fire_other.
  - intros t Et. split.
    + simpl. rewrite (fire_current t b Hb Et). simpl.
      by apply write_value, sound_default.
    + simpl. unfold changed. by rewrite Et.
Qed.

Lemma blinker_holds_one_timer_witness :
  let b0 := mkBlinker (createSignal (VBool false)) None [] 1 in
  let b := exec b0 [Changed; Changed; Fire 1] in
  timers b = [2%nat] /\ blinking b = VBool true.
Proof.
  destruct (blinker_holds_one_timer true (VFun 0) VUndefined
              (mkBlinker (createSignal (VBool false)) None [] 1)
              [Changed; Changed; Fire 1] eq_refl) as (_ & H1 & H2 & _).
  split; [exact H1 | exact H2].
Defined.

Example blinker_arguments :
  createBlinker true (VNum 1) VUndefined
  = inl "expected subject to be a function, but got number"%string
  /\ createBlinker true (VFun 0) (VStr "1s")
     = inl "expected duration to be a number, but got string"%string
  /\ createBlinker false (VNum 1) (VStr "1s")
     = createBlinker true (VFun 0) VUndefined.
Proof. by vm_compute. Qed.

End BlinkerFacts.

(** ** [createSpool] *)

Module SpoolFacts.
Import Spool.

Section Spool.

Variable winch : nat -> Fetched.WinchRun.
Variable boundary : bool.

Lemma updates_fields xs s :
  let s' := fold_left (fun a x => update x a) xs s in
  init s' = init s /\ winds s' = winds s.
Proof.
  revert s. induction xs as [|x xs IH]; intros s; [done|].
  apply (IH (update x s)).
Qed.

Lemma wind_fields s :
  init (snd (wind winch s)) = init s /\ winds (snd (wind winch s)) = S (winds s).
Proof.
  unfold wind.
  destruct (updates_fields (Fetched.commits (winch (winds s)))
              (mkSpool (spool s) (init s) (S (winds s)))) as (A & B).
  by destruct (Fetched.raised (winch (winds s))).
Qed.

Lemma read_fields s :
  init (snd (read winch boundary s)) = false
  /\ winds (snd (read winch boundary s))
     = (if init s then S (winds s) else winds s).
Proof.
  unfold read. destruct (init s) eqn:E; [|done].
  destruct (wind_fields (mkSpool (spool s) false (winds s))) as (A & B).
  by destruct (wind winch (mkSpool (spool s) false (winds s))) as [[] s'].
Qed.

Lemma exec_winds s evs :
  let s' := exec winch boundary s evs in
  init s' = init s && negb (existsb is_read evs)
  /\ winds s' = (if init s && existsb is_read evs then S (winds s) else winds s).
Proof.
  revert s. induction evs as [|e evs IH]; intros s.
  - simpl. rewrite andb_true_r, andb_false_r. done.
  - change (exec winch boundary s (e :: evs))
      with (exec winch boundary (step winch boundary s e) evs).
    cbv zeta. destruct (IH (step winch boundary s e)) as (A & B).
    rewrite A, B. destruct e as [|x]; simpl.
    + destruct (read_fields s) as (-> & ->). simpl.
      rewrite andb_true_r. by destruct (init s).
    + done.
Qed.

Lemma read_wound s :
  init s = false -> read winch boundary s = (Some (spool s), s).
Proof. unfold read. by intros ->. Qed.

(** X14. The winch of a spool is called once: when the spool is created,
    or, for a late spool, by the first read and by no later one.  Every
    value the winch hands to [update], at any time, becomes the value of
    the spool, and once wound a read only returns that value. *)
Theorem winch_is_wound_once initial late evs x :
  let s := exec winch boundary (snd (createSpool winch initial late)) evs in
  winds s = (if late && negb (existsb is_read evs) then O else 1%nat)
  /\ init s = late && negb (existsb is_read evs)
  /\ spool (step winch boundary s (Update x)) = x
  /\ (init s = false -> read winch boundary s = (Some (spool s), s)).
Proof.
  cbv zeta.
  destruct (exec_winds (snd (createSpool winch initial late)) evs) as (A & B).
  split; [|split; [|split; [apply SignalFacts.write_val | apply read_wound]]].
  - rewrite B. unfold createSpool. destruct late; simpl.
    + by destruct (existsb is_read evs).
    + by destruct (wind_fields (mkSpool initial false 0)) as (-> & ->).
  - rewrite A. unfold createSpool. destruct late; simpl; [done|].
    by destruct (wind_fields (mkSpool initial false 0)) as (-> & _).
Qed.

End Spool.

Example late_spool :
  let w := Fetched.commits_42_first in
  let s0 := snd (createSpool w VUndefined true) in
  winds s0 = O
  /\ read w false s0 = (Some (VNum 42), mkSpool (VNum 42) false 1)
  /\ winds (exec w false s0 [Read; Update (VNum 7); Read; Read]) = 1%nat
  /\ spool (exec w false s0 [Read; Update (VNum 7); Read; Read]) = VNum 7.
Proof. by vm_compute. Qed.

End SpoolFacts.

(** ** [derive] *)

Module DeriveFacts.
Import Cell Derive CellFacts.

Section Derive.

Variable eq : Equals.
Hypothesis eq_sound : sound eq.





End Derive.


End DeriveFacts.
